(** * Organisation-chart explorer: helpers, button, create-node modal

    A shallow embedding of [src/utils/helpers.ts] and of the two component
    scripts in [src/components/common/Button.vue] (the button and the
    create-node modal), together with a model of the tree store
    (repository and fetch coordinator) that the specification describes.

    JavaScript values are embedded as follows.
    - A string is its sequence of UTF-16 code units ([list N]).
    - A page number is an integer-valued [number], held as a [Z];
      subtraction rounds its result to the nearest double as IEEE 754
      does, so it is exact only up to [2 ^ 53].
    - A [number] that is only compared and passed on (the employee count)
      is [JS.number]: a rational, an infinity or [NaN].
    - [T | null] is [option T]; [undefined] as the result of an array read
      out of range is [None].
    - An object used as a dictionary ([Record<string, string>]) is a
      [gmap string string]. *)

From stdpp Require Import gmap strings list fin_maps.
From Stdlib Require Import ZArith QArith Qcanon.

Local Open Scope Z_scope.
#[local] Set Warnings "-clear-no-such-hyp".

(* ===================================================================== *)
(** * Part I: the program *)
(* ===================================================================== *)

(** ** JavaScript primitives used by the sources *)

Module JS.

(** A JavaScript string: UTF-16 code units. *)
Abbreviation str := (list N).

(** The code units of an ASCII literal of the source text. *)
Definition lit (s : string) : str :=
  Ascii.N_of_ascii <$> String.list_ascii_of_string s.

Definition QUOTE : N := 34%N.
Definition COMMA : N := 44%N.
Definition LF : N := 10%N.

(** The double nearest to the integer [z], ties going to the even
    significand (IEEE 754 round-to-nearest-even, for [z] below the
    overflow threshold [2 ^ 1024]).  Every integer of magnitude below
    [2 ^ 53] is a double; from there on the doubles between [2 ^ k] and
    [2 ^ (k + 1)] are the multiples of [u = 2 ^ (k - 52)]. *)
Definition roundToDouble (z : Z) : Z :=
  if decide (Z.abs z < 2 ^ 53) then z
  else
    let u := 2 ^ (Z.log2 (Z.abs z) - 52) in
    let q := z / u in
    let r := z mod u in
    if decide (2 * r < u) then q * u
    else if decide (u < 2 * r) then (q + 1) * u
    else if Z.even q then q * u else (q + 1) * u.

(** [a - b] on integer-valued numbers: the exact difference, rounded. *)
Definition sub (a b : Z) : Z := roundToDouble (a - b).

(** A [number] that is not computed with: a finite value (every double
    is a rational), an infinity, or [NaN]. *)
Inductive number :=
  | NaN
  | Infinity (negative : bool)
  | Finite (q : Qc).

#[global] Instance number_eq_dec : EqDecision number.
Proof. solve_decision. Defined.

(** [x < 0] for a number [x]; a comparison with [NaN] is false. *)
Definition lt0 (x : number) : bool :=
  match x with
  | NaN => false
  | Infinity negative => negative
  | Finite q => bool_decide (q < Qc_of_Z 0)%Qc
  end.

(** [a % b] on integers: the sign of the result follows the dividend.
    The remainder of two doubles is exact. *)
Definition rem (a b : Z) : Z := Z.rem a b.

(** [arr[i]] for an integer index: [undefined] outside [0 .. length-1]. *)
Definition index {A} (arr : list A) (i : Z) : option A :=
  if decide (i < 0) then None else arr !! Z.to_nat i.

(** [arr.join(sep)] on an array of strings. *)
Fixpoint join (sep : str) (arr : list str) : str :=
  match arr with
  | [] => []
  | [x] => x
  | x :: rest => x ++ sep ++ join sep rest
  end.

(** [s.replace(/c/g, by_)]: every occurrence of the code unit [c] is
    replaced by the string [by_]. *)
Definition replace_all (c : N) (by_ : str) (s : str) : str :=
  s ≫= (λ u, if decide (u = c) then by_ else [u]).

(** ECMAScript [WhiteSpace] and [LineTerminator] code points, the ones
    [String.prototype.trim] strips. *)
Definition isWhiteSpace (c : N) : bool :=
  bool_decide (c ∈ [9; 10; 11; 12; 13; 32; 160; 5760; 8232; 8233; 8239;
                    8287; 12288; 65279]%N)
  || bool_decide (8192 ≤ c ≤ 8202)%N.

Fixpoint trimStart (s : str) : str :=
  match s with
  | c :: s' => if isWhiteSpace c then trimStart s' else s
  | [] => []
  end.

Definition trimEnd (s : str) : str := reverse (trimStart (reverse s)).

Definition trim (s : str) : str := trimEnd (trimStart s).

(** [!s] for a string [s]: only the empty string is falsy. *)
Definition not_ (s : str) : bool := bool_decide (s = []).

End JS.

(** ** [stores/dyanmicTree]: the node type *)

Module Tree.

(** Modelled from the spec: the [Node] type imported by [helpers.ts] from
    [stores/dyanmicTree], which is not among the sources; the fields are
    those of the data model (section 3), [parentId] typed [string | null]
    as in the signature of [filterByExactParentID]. *)
Record Node := {
  id : JS.str;
  parentId : option JS.str;
  label : JS.str;
  description : JS.str;
  numberOfEmployees : Z;
  childrenLoaded : bool;
  expanded : bool;
}.

#[export] Instance Node_eq_dec : EqDecision Node.
Proof. solve_decision. Defined.

End Tree.

(** ** [utils/helpers.ts] *)

Module Helpers.
Import Tree.

(** [data.filter((item) => item.parentId === parentId)].  On
    [string | null] strict equality holds when both sides are [null] or
    both are strings with the same code units. *)
Definition filterByExactParentID (data : list Node) (parentId : option JS.str)
  : list Node :=
  filter (λ item, item.(Tree.parentId) = parentId) data.

(** The members of [API_ENDPOINTS] (from [utils/endpoints], not among the
    sources) that the selector reads. *)
Record API_ENDPOINTS_t := {
  DEPARTMENTS2 : JS.str;
  DEPARTMENTS3 : JS.str;
}.

Definition endpoints (API_ENDPOINTS : API_ENDPOINTS_t) : list JS.str :=
  [API_ENDPOINTS.(DEPARTMENTS2); API_ENDPOINTS.(DEPARTMENTS3)].

(** [endpoints[(page - 1) % endpoints.length]] for an integer-valued
    [page]; [None] is [undefined]. *)
Definition getEndpointForRootNodes (API_ENDPOINTS : API_ENDPOINTS_t)
    (page : Z) : option JS.str :=
  let endpoints := endpoints API_ENDPOINTS in
  JS.index endpoints
    (JS.rem (JS.sub page 1) (Z.of_nat (length endpoints))).

(** A cell of an exported row ([any] in the source): [null], [undefined],
    a string, or some other value [v] whose conversion [String(v)] is left
    to the parameter [toString] of [exportToCSV]. *)
Inductive Cell (V : Type) :=
  | CNull
  | CUndefined
  | CString (s : JS.str)
  | COther (v : V).
Arguments CNull {V}.
Arguments CUndefined {V}.
Arguments CString {V} s.
Arguments COther {V} v.

Section exportToCSV.
Context {V : Type} (toString : V → JS.str).

(** [String(cell)] for a cell that is neither [null] nor [undefined]. *)
Definition String_ (cell : Cell V) : JS.str :=
  match cell with
  | CNull => JS.lit "null"
  | CUndefined => JS.lit "undefined"
  | CString s => s
  | COther v => toString v
  end.

(** The header template: the header between two quote characters, after
    [replace] has doubled each quote character inside it.  A header is a
    string: [replace] is called on it as the string method. *)
Definition csvHeader (header : JS.str) : JS.str :=
  [JS.QUOTE] ++ JS.replace_all JS.QUOTE [JS.QUOTE; JS.QUOTE] header
             ++ [JS.QUOTE].

(** The callback of [row.map]: [cell == null] holds for [null] and
    [undefined] only. *)
Definition csvCell (cell : Cell V) : JS.str :=
  match cell with
  | CNull | CUndefined => [JS.QUOTE; JS.QUOTE]
  | _ => [JS.QUOTE]
           ++ JS.replace_all JS.QUOTE [JS.QUOTE; JS.QUOTE] (String_ cell)
           ++ [JS.QUOTE]
  end.

Definition csvHeaders (headers : list JS.str) : JS.str :=
  JS.join [JS.COMMA] (csvHeader <$> headers).

Definition csvRows (sortedAndFilteredRows : list (list (Cell V))) : JS.str :=
  JS.join [JS.LF]
    ((λ row, JS.join [JS.COMMA] (csvCell <$> row)) <$> sortedAndFilteredRows).

(** The text handed to the [Blob] by [exportToCSV]:
    [`${csvHeaders}\n${csvRows}`].  The download link built around it is
    browser plumbing and is not modelled. *)
Definition exportToCSV (sortedAndFilteredRows : list (list (Cell V)))
    (headers : list JS.str) : JS.str :=
  csvHeaders headers ++ [JS.LF] ++ csvRows sortedAndFilteredRows.

End exportToCSV.

End Helpers.

(** ** Effects of the component scripts

    A handler of a component reads and writes the component's refs and
    performs effects visible outside it (calling a prop, emitting an
    event).  A handler is a function from the state of the refs to its
    result, the new state and the effects performed, in order. *)

Module Eff.

Definition t (S E A : Type) : Type := S → A * S * list E.

Section ops.
Context {S E : Type}.

Definition ret {A} (a : A) : t S E A := λ s, (a, s, []).

Definition bind {A B} (m : t S E A) (k : A → t S E B) : t S E B :=
  λ s, let '(a, s1, tr1) := m s in
       let '(b, s2, tr2) := k a s1 in
       (b, s2, tr1 ++ tr2).

(** Read the refs. *)
Definition get : t S E S := λ s, (s, s, []).

(** Perform an effect that leaves the refs alone. *)
Definition perform (e : E) : t S E unit := λ s, (tt, s, [e]).

(** Perform an effect that also updates the refs. *)
Definition update (e : E) (f : S → S) : t S E unit := λ s, (tt, f s, [e]).

Definition result {A} (r : A * S * list E) : A := r.1.1.
Definition state {A} (r : A * S * list E) : S := r.1.2.
Definition trace {A} (r : A * S * list E) : list E := r.2.

End ops.

Declare Scope eff_scope.
Delimit Scope eff_scope with eff.

Module Notations.
Notation "x ← m ; k" := (bind m (λ x, k))
  (at level 20, m at level 100, k at level 200, only parsing) : eff_scope.
Notation "m ;; k" := (bind m (λ _, k))
  (at level 100, k at level 200, right associativity, only parsing) : eff_scope.
End Notations.

End Eff.

(** ** [components/common/Button.vue] *)

Module Button.
Import Eff.Notations.

Section Button.
(** [Fn]: the functions a parent may pass as the [action] prop. *)
Context {Fn : Type}.

Record Props := {
  disabled : bool;
  loading : bool;
  action : Fn;
}.

(** The one effect of the script: a call [f()]. *)
Inductive Effect := Call (f : Fn).

(** [if (!props.disabled && !props.loading) { props.action(); }] *)
Definition handleClick (props : Props) : Eff.t unit Effect unit :=
  if negb props.(disabled) && negb props.(loading)
  then Eff.perform (Call props.(action))
  else Eff.ret tt.

End Button.
Arguments Props : clear implicits.
Arguments Effect : clear implicits.

End Button.

(** ** The create-node modal (second script of [Button.vue]) *)

Module CreateNodeModal.
Import Eff.Notations.

Record Props := { parentId : option JS.str }.

(** What the ref [numberOfEmployees] holds when it is not [null]: a
    number, or the empty string.  The ref is declared [number | null],
    but the [v-model.number] binding of the template assigns the string
    of the input when it does not parse as a number, and for a number
    input that is the empty string of a cleared field. *)
Inductive Count :=
  | Number (x : JS.number)
  | EmptyString.

#[export] Instance Count_eq_dec : EqDecision Count.
Proof. solve_decision. Defined.

(** [c < 0] for what the ref holds: the empty string converts to 0. *)
Definition negative (c : Count) : bool :=
  match c with
  | Number x => JS.lt0 x
  | EmptyString => false
  end.

(** The count entered as the integer [n]. *)
Definition count (n : Z) : Count := Number (JS.Finite (Qc_of_Z n)).

(** The payload of the [submit] event. *)
Module NewNode.
Record t := {
  label : JS.str;
  parentId : option JS.str;
  description : JS.str;
  numberOfEmployees : option Count;
}.
End NewNode.

(** The two events declared with [defineEmits]. *)
Inductive Event :=
  | close
  | submit (newNode : NewNode.t).

(** The refs of the script ([modalRef] only serves the click-outside
    listener and is left out).  [None] is [null]. *)
Record Refs := {
  newNodeLabel : JS.str;
  description : JS.str;
  numberOfEmployees : option Count;
  isInputValid : bool;
  errorMessages : gmap string string;
}.

(** The refs as the script initialises them. *)
Definition setup : Refs :=
  {| newNodeLabel := []; description := []; numberOfEmployees := None;
     isInputValid := true; errorMessages := ∅ |}.

(** An assignment [r.value = v] to one of the refs. *)
Inductive Assign :=
  | set_newNodeLabel (v : JS.str)
  | set_description (v : JS.str)
  | set_numberOfEmployees (v : option Count)
  | set_isInputValid (v : bool)
  | set_errorMessages (v : gmap string string).

Definition store (a : Assign) (r : Refs) : Refs :=
  match a with
  | set_newNodeLabel v =>
      {| newNodeLabel := v; description := r.(description);
         numberOfEmployees := r.(numberOfEmployees);
         isInputValid := r.(isInputValid);
         errorMessages := r.(errorMessages) |}
  | set_description v =>
      {| newNodeLabel := r.(newNodeLabel); description := v;
         numberOfEmployees := r.(numberOfEmployees);
         isInputValid := r.(isInputValid);
         errorMessages := r.(errorMessages) |}
  | set_numberOfEmployees v =>
      {| newNodeLabel := r.(newNodeLabel); description := r.(description);
         numberOfEmployees := v;
         isInputValid := r.(isInputValid);
         errorMessages := r.(errorMessages) |}
  | set_isInputValid v =>
      {| newNodeLabel := r.(newNodeLabel); description := r.(description);
         numberOfEmployees := r.(numberOfEmployees);
         isInputValid := v;
         errorMessages := r.(errorMessages) |}
  | set_errorMessages v =>
      {| newNodeLabel := r.(newNodeLabel); description := r.(description);
         numberOfEmployees := r.(numberOfEmployees);
         isInputValid := r.(isInputValid);
         errorMessages := v |}
  end.

(** What a handler does, in order: events emitted to the parent and
    assignments to refs. *)
Inductive Effect :=
  | Emit (e : Event)
  | Write (a : Assign).

Abbreviation M := (Eff.t Refs Effect).

Definition emit (e : Event) : M unit := Eff.perform (Emit e).
Definition assign (a : Assign) : M unit := Eff.update (Write a) (store a).

(** [Object.keys(o)] *)
Definition Object_keys (o : gmap string string) : list string :=
  (map_to_list o).*1.

Local Open Scope eff_scope.

(** [resetAndEmit]: emit [submit], clear the three inputs, emit [close]. *)
Definition resetAndEmit (newNode : NewNode.t) : M unit :=
  emit (submit newNode) ;;
  assign (set_newNodeLabel []) ;;
  assign (set_description []) ;;
  assign (set_numberOfEmployees None) ;;
  emit close.

(** [validateForm]: collect the errors of all three fields, publish them
    in [errorMessages], and return whether there were none. *)
Definition validateForm : M bool :=
  r ← Eff.get;
  let errors : gmap string string := ∅ in
  let errors :=
    if JS.not_ (JS.trim r.(newNodeLabel))
    then <["label" := "empty_node_label"]> errors else errors in
  let errors :=
    if JS.not_ (JS.trim r.(description))
    then <["description" := "empty_description"]> errors else errors in
  let errors :=
    if bool_decide (r.(numberOfEmployees) = None)
       || from_option negative false r.(numberOfEmployees)
    then <["numberOfEmployees" := "invalid_employee_count"]> errors
    else errors in
  assign (set_errorMessages errors) ;;
  Eff.ret (bool_decide (length (Object_keys errors) = 0%nat)).

(** [handleSubmit]: stop when validation fails, else build the node from
    the refs and hand it to [resetAndEmit]. *)
Definition handleSubmit (props : Props) : M unit :=
  valid ← validateForm;
  if negb valid then
    assign (set_isInputValid false)
  else
    assign (set_isInputValid true) ;;
    r ← Eff.get;
    let newNode :=
      {| NewNode.label := r.(newNodeLabel);
         NewNode.parentId := props.(parentId);
         NewNode.description := r.(description);
         NewNode.numberOfEmployees := r.(numberOfEmployees) |} in
    resetAndEmit newNode.

(** The three rules of the form, as conditions on the refs. *)
Definition label_violated (r : Refs) : Prop :=
  JS.trim r.(newNodeLabel) = [].
Definition description_violated (r : Refs) : Prop :=
  JS.trim r.(description) = [].
Definition employees_violated (r : Refs) : Prop :=
  r.(numberOfEmployees) = None
  ∨ ∃ c, r.(numberOfEmployees) = Some c ∧ negative c = true.

(** The errors that [validateForm] collects. *)
Definition errors_of (r : Refs) : gmap string string :=
  errorMessages (Eff.state (validateForm r)).

(** The assignments that touch one of the three input fields. *)
Definition writes_input (a : Assign) : bool :=
  match a with
  | set_newNodeLabel _ | set_description _ | set_numberOfEmployees _ => true
  | set_isInputValid _ | set_errorMessages _ => false
  end.

End CreateNodeModal.

(** ** The node repository (specification, section 4.1) *)

Module Repository.
Import Tree.

(** Modelled from the spec: the Node Repository, which lives in
    [stores/dyanmicTree] and is not among the sources.  It is the keyed
    store of section 4.1: the nodes in insertion order, each [id] held at
    most once. *)
Abbreviation t := (list Node).

(** The ids held by a repository. *)
Definition id_set (repo : t) : gset JS.str := list_to_set (id <$> repo).

(** Modelled from the spec: a batch entry overwrites the fields of the
    stored node with the same [id] but never clears [expanded] or
    [childrenLoaded]. *)
Definition merge (old new : Node) : Node :=
  {| id := new.(id); parentId := new.(parentId); label := new.(label);
     description := new.(description);
     numberOfEmployees := new.(numberOfEmployees);
     childrenLoaded := old.(childrenLoaded);
     expanded := old.(expanded) |}.

(** Modelled from the spec: merge one node by [id]; a node whose [id] is
    new goes to the end of the sequence. *)
Fixpoint upsert (n : Node) (repo : t) : t :=
  match repo with
  | [] => [n]
  | m :: rest =>
      if decide (m.(id) = n.(id)) then merge m n :: rest
      else m :: upsert n rest
  end.

(** Modelled from the spec: [upsertMany(nodes)] merges a batch by [id]. *)
Definition upsertMany (nodes : list Node) (repo : t) : t :=
  foldl (λ r n, upsert n r) repo nodes.

(** Modelled from the spec: [remove(id)] deletes a node. *)
Definition remove (i : JS.str) (repo : t) : t :=
  filter (λ n, n.(id) ≠ i) repo.

(** Modelled from the spec: [childrenOf(parentId)], the nodes whose
    [parentId] exactly equals the given one, computed with the source's
    [filterByExactParentID]. *)
Definition childrenOf (parentId : option JS.str) (repo : t) : list Node :=
  Helpers.filterByExactParentID repo parentId.

(** Modelled from the spec: once the children of node [i] are fetched its
    [childrenLoaded] flag is set. *)
Definition setChildrenLoaded (i : JS.str) (repo : t) : t :=
  (λ n, if decide (n.(id) = i)
        then {| id := n.(id); parentId := n.(parentId); label := n.(label);
                description := n.(description);
                numberOfEmployees := n.(numberOfEmployees);
                childrenLoaded := true; expanded := n.(expanded) |}
        else n) <$> repo.

(** Modelled from the spec: the optimistic write of the creation workflow
    (section 4.5), which inserts the temporary node at once; like every
    mutation it goes through [upsertMany]. *)
Definition optimisticInsert (tmp : Node) (repo : t) : t :=
  upsertMany [tmp] repo.

(** Modelled from the spec: the rollback of the creation workflow, which
    removes the temporary node when [createNode] is rejected. *)
Definition rollback (tmp : Node) (repo : t) : t :=
  remove tmp.(id) repo.

End Repository.

(** ** The fetch coordinator (specification, section 4.3) *)

Module FetchCoordinator.
Import Tree.

(** Modelled from the spec: a request key, a [parentId] or [root:p]. *)
Inductive Key :=
  | children (parentId : JS.str)
  | root (p : Z).

#[export] Instance Key_eq_dec : EqDecision Key.
Proof. solve_decision. Defined.

#[export] Instance Key_countable : Countable Key.
Proof.
  refine (inj_countable'
    (λ k, match k with children i => inl i | root p => inr p end)
    (λ x, match x with inl i => children i | inr p => root p end) _).
  by intros [].
Defined.

(** Modelled from the spec: the fetch capability of section 6,
    [fetchChildren(parentId)] and [fetchRootPage(endpoint, page)]. *)
Inductive NetworkCall :=
  | fetchChildren (parentId : JS.str)
  | fetchRootPage (endpoint : option JS.str) (page : Z).

#[export] Instance NetworkCall_eq_dec : EqDecision NetworkCall.
Proof. solve_decision. Defined.

(** Modelled from the spec: the coordinator, which is not among the
    sources.  [inFlight] is its set of in-flight request keys; [pending]
    lists the network operations that were issued and have not completed
    yet, by key; [calls] logs every call made to the fetch capability. *)
Record State := {
  inFlight : gset Key;
  pending : list Key;
  calls : list NetworkCall;
  repo : Repository.t;
}.

(** Modelled from the spec: the coordinator at start, nothing in flight. *)
Definition init (r : Repository.t) : State :=
  {| inFlight := ∅; pending := []; calls := []; repo := r |}.

Section coordinator.
Variable API_ENDPOINTS : Helpers.API_ENDPOINTS_t.

(** Modelled from the spec: the call that serves a key; a root page goes
    to the endpoint chosen by the source's [getEndpointForRootNodes]. *)
Definition call_of (k : Key) : NetworkCall :=
  match k with
  | children i => fetchChildren i
  | root p => fetchRootPage (Helpers.getEndpointForRootNodes API_ENDPOINTS p) p
  end.

(** Modelled from the spec: a request for a key already in flight is
    ignored; otherwise the key enters the in-flight set and one call is
    issued. *)
Definition load (k : Key) (s : State) : State :=
  if decide (k ∈ s.(inFlight)) then s
  else {| inFlight := {[k]} ∪ s.(inFlight);
          pending := s.(pending) ++ [k];
          calls := s.(calls) ++ [call_of k];
          repo := s.(repo) |}.

(** Modelled from the spec: a completion takes the operation for [k] off
    the pending list. *)
Fixpoint complete (k : Key) (l : list Key) : list Key :=
  match l with
  | [] => []
  | k' :: l' => if decide (k' = k) then l' else k' :: complete k l'
  end.

(** Modelled from the spec: on success the results are merged with
    [upsertMany] and [childrenLoaded] is set. *)
Definition onSuccess (k : Key) (nodes : list Node) (s : State) : State :=
  let merged := Repository.upsertMany nodes s.(repo) in
  {| inFlight := s.(inFlight) ∖ {[k]};
     pending := complete k s.(pending);
     calls := s.(calls);
     repo := match k with
             | children i => Repository.setChildrenLoaded i merged
             | root _ => merged
             end |}.

(** Modelled from the spec: on failure the key leaves the in-flight set,
    so that a retry is possible. *)
Definition onFailure (k : Key) (s : State) : State :=
  {| inFlight := s.(inFlight) ∖ {[k]};
     pending := complete k s.(pending);
     calls := s.(calls);
     repo := s.(repo) |}.

(** Modelled from the spec: what can happen to the coordinator, a load
    request or the completion of a fetch. *)
Inductive Event :=
  | Load (k : Key)
  | Success (k : Key) (nodes : list Node)
  | Failure (k : Key).

(** Modelled from the spec: one transition.  A load can always be
    requested; only an operation that is pending can complete. *)
Inductive step : State → Event → State → Prop :=
  | step_load k s :
      step s (Load k) (load k s)
  | step_success k nodes s :
      k ∈ s.(pending) → step s (Success k nodes) (onSuccess k nodes s)
  | step_failure k s :
      k ∈ s.(pending) → step s (Failure k) (onFailure k s).

(** Modelled from the spec: the states reached from a start state by any
    sequence of load requests and completions. *)
Inductive reachable : State → Prop :=
  | reachable_init r : reachable (init r)
  | reachable_step s e s' : reachable s → step s e s' → reachable s'.

(** The number of pending operations for a key. *)
Definition outstanding (k : Key) (s : State) : nat :=
  length (filter (λ k', k' = k) s.(pending)).

(** The number of calls made so far for a key. *)
Definition issued (k : Key) (s : State) : nat :=
  length (filter (λ c, c = call_of k) s.(calls)).

(** A run of the coordinator: a sequence of events, each enabled. *)
Inductive steps : State → list Event → State → Prop :=
  | steps_nil s : steps s [] s
  | steps_cons s e s' es s'' :
      step s e s' → steps s' es s'' → steps s (e :: es) s''.

(** The event completes the operation for [k]. *)
Definition completes (k : Key) (e : Event) : Prop :=
  match e with
  | Load _ => False
  | Success k' _ | Failure k' => k' = k
  end.

(** The in-flight set and the pending operations agree, and no key is
    pending twice. *)
Definition coherent (s : State) : Prop :=
  NoDup s.(pending) ∧ ∀ k, k ∈ s.(pending) ↔ k ∈ s.(inFlight).

End coordinator.

End FetchCoordinator.

(** ** The shape of the exported CSV text

    The text that [exportToCSV] is meant to build, written out directly
    by recursion on the fields, for comparison with the source's
    [map]/[join]/[replace] pipeline. *)

Module CSVText.
Import Helpers.

(** Every quote character doubled. *)
Fixpoint doubled (s : JS.str) : JS.str :=
  match s with
  | [] => []
  | c :: s' =>
      if N.eqb c JS.QUOTE then JS.QUOTE :: JS.QUOTE :: doubled s'
      else c :: doubled s'
  end.

(** A field: the text between two quote characters, its own quote
    characters doubled. *)
Definition quoted (s : JS.str) : JS.str :=
  JS.QUOTE :: doubled s ++ [JS.QUOTE].

(** Reading [doubled] back: a pair of quote characters stands for one, a
    lone one is malformed. *)
Fixpoint undoubled (s : JS.str) : option JS.str :=
  match s with
  | [] => Some []
  | c :: s' =>
      if N.eqb c JS.QUOTE then
        match s' with
        | c' :: s'' =>
            if N.eqb c' JS.QUOTE then cons JS.QUOTE <$> undoubled s''
            else None
        | [] => None
        end
      else cons c <$> undoubled s'
  end.

(** Reading a field back: strip the enclosing quote characters and undo
    the doubling. *)
Definition unquoted (f : JS.str) : option JS.str :=
  match f with
  | c :: f' =>
      if N.eqb c JS.QUOTE then
        match reverse f' with
        | c' :: r => if N.eqb c' JS.QUOTE then undoubled (reverse r) else None
        | [] => None
        end
      else None
  | [] => None
  end.

(** Fields separated by commas. *)
Fixpoint line (fields : list JS.str) : JS.str :=
  match fields with
  | [] => []
  | [f] => f
  | f :: fs => f ++ JS.COMMA :: line fs
  end.

(** Lines separated by newlines. *)
Fixpoint lines (ls : list JS.str) : JS.str :=
  match ls with
  | [] => []
  | [l] => l
  | l :: ls' => l ++ JS.LF :: lines ls'
  end.

Section text.
Context {V : Type} (toString : V → JS.str).

(** The field of a cell: empty for [null] and [undefined]. *)
Definition field (cell : Cell V) : JS.str :=
  match cell with
  | CNull | CUndefined => quoted []
  | CString s => quoted s
  | COther v => quoted (toString v)
  end.

(** The header line, a newline, then one line per row. *)
Definition text (headers : list JS.str) (rows : list (list (Cell V)))
  : JS.str :=
  line (quoted <$> headers) ++ JS.LF :: lines ((λ row, line (field <$> row)) <$> rows).

End text.

End CSVText.

(** ** Sample data for running the definitions *)

Module Sample.

Definition endpoints : Helpers.API_ENDPOINTS_t :=
  {| Helpers.DEPARTMENTS2 := JS.lit "/departments2";
     Helpers.DEPARTMENTS3 := JS.lit "/departments3" |}.

(** A repository with one root and two departments under it. *)
Definition node (i : string) (parent : option string) (name : string)
    (staff : Z) : Tree.Node :=
  {| Tree.id := JS.lit i; Tree.parentId := JS.lit <$> parent;
     Tree.label := JS.lit name; Tree.description := JS.lit name;
     Tree.numberOfEmployees := staff;
     Tree.childrenLoaded := false; Tree.expanded := false |}.

Definition repo : Repository.t :=
  [node "1" None "Head office" 12;
   node "2" (Some "1") "Sales" 7;
   node "11" (Some "1") "Research" 5;
   node "21" (Some "2") "Field sales" 3;
   node "12" (Some "11") "Laboratory" 2].

(** A node under creation, with a temporary id. *)
Definition draft : Tree.Node := node "tmp-1" (Some "1") "Support" 4.

(** A form filled in correctly, and one with a blank label and a
    negative count. *)
Definition filled : CreateNodeModal.Refs :=
  {| CreateNodeModal.newNodeLabel := JS.lit " Support ";
     CreateNodeModal.description := JS.lit "Help desk";
     CreateNodeModal.numberOfEmployees := Some (CreateNodeModal.count 4);
     CreateNodeModal.isInputValid := true;
     CreateNodeModal.errorMessages := ∅ |}.

Definition blank_negative : CreateNodeModal.Refs :=
  {| CreateNodeModal.newNodeLabel := JS.lit "   ";
     CreateNodeModal.description := JS.lit "Help desk";
     CreateNodeModal.numberOfEmployees :=
       Some (CreateNodeModal.count (-1));
     CreateNodeModal.isInputValid := true;
     CreateNodeModal.errorMessages := ∅ |}.

(** A form whose number input was filled in and then cleared. *)
Definition cleared : CreateNodeModal.Refs :=
  {| CreateNodeModal.newNodeLabel := JS.lit "Support";
     CreateNodeModal.description := JS.lit "Help desk";
     CreateNodeModal.numberOfEmployees := Some CreateNodeModal.EmptyString;
     CreateNodeModal.isInputValid := true;
     CreateNodeModal.errorMessages := ∅ |}.

(** [String(b)] for a boolean. *)
Definition string_of_bool (b : bool) : JS.str :=
  if b then JS.lit "true" else JS.lit "false".

(** The coordinator after one request for the children of node 2. *)
Definition loading : FetchCoordinator.State :=
  FetchCoordinator.load endpoints (FetchCoordinator.children (JS.lit "2"))
    (FetchCoordinator.init repo).

End Sample.

(** ** [utils/helpers.ts]: the name of the downloaded file *)

Module Download.

Definition UNDERSCORE : N := 95%N.

(** [s.replace(/\s+/g, by_)], scanning left to right: [in_run] tells that
    the code unit before was white space, so that a maximal run of white
    space is replaced once.  The class [\s] is [JS.isWhiteSpace]. *)
Fixpoint replace_runs (by_ : JS.str) (in_run : bool) (s : JS.str) : JS.str :=
  match s with
  | [] => []
  | c :: s' =>
      if JS.isWhiteSpace c then
        if in_run then replace_runs by_ true s'
        else by_ ++ replace_runs by_ true s'
      else c :: replace_runs by_ false s'
  end.

(** The [download] attribute set by [exportToCSV]: the title with each
    run of white space turned into one underscore, an underscore, the date
    and the extension.  [date] stands for
    [new Date().toISOString().slice(0, 10)]. *)
Definition downloadName (title date : JS.str) : JS.str :=
  replace_runs [UNDERSCORE] false title
    ++ JS.lit "_" ++ date ++ JS.lit ".csv".

End Download.

(** ** Reading an exported CSV text back

    A reader for the text of [exportToCSV], used to state what the export
    preserves.  It is not part of the sources. *)

Module CSVRead.

Inductive Mode :=
  | LineStart    (* at the start of a line *)
  | FieldStart   (* after a comma *)
  | InField      (* between the quote characters of a field *)
  | AfterQuote.  (* after a quote character met inside a field *)

(** One pass over the text.  [cur] is the field being read, reversed;
    [row] the fields of the line read so far, reversed; [done] the lines
    read so far, reversed.  A text that ends right after a newline has no
    further line. *)
Fixpoint scan (m : Mode) (cur : JS.str) (row : list JS.str)
    (done : list (list JS.str)) (s : JS.str) : option (list (list JS.str)) :=
  match s with
  | [] =>
      match m with
      | LineStart => Some (reverse done)
      | AfterQuote => Some (reverse (reverse (reverse cur :: row) :: done))
      | FieldStart | InField => None
      end
  | c :: s' =>
      match m with
      | LineStart =>
          if N.eqb c JS.QUOTE then scan InField [] [] done s'
          else if N.eqb c JS.LF then scan LineStart [] [] ([] :: done) s'
          else None
      | FieldStart =>
          if N.eqb c JS.QUOTE then scan InField [] row done s' else None
      | InField =>
          if N.eqb c JS.QUOTE then scan AfterQuote cur row done s'
          else scan InField (c :: cur) row done s'
      | AfterQuote =>
          if N.eqb c JS.QUOTE then scan InField (c :: cur) row done s'
          else if N.eqb c JS.COMMA then
            scan FieldStart [] (reverse cur :: row) done s'
          else if N.eqb c JS.LF then
            scan LineStart [] [] (reverse (reverse cur :: row) :: done) s'
          else None
      end
  end.

(** The header fields and the rows of fields of a text. *)
Definition read (s : JS.str) : option (list JS.str * list (list JS.str)) :=
  match scan LineStart [] [] [] s with
  | Some (headers :: rows) => Some (headers, rows)
  | _ => None
  end.

(** A line of the text, from the contents of its fields. *)
Definition rendered (fs : list JS.str) : JS.str :=
  CSVText.line (CSVText.quoted <$> fs).

(** What follows the first field of a line: a comma and a field, for each
    further field. *)
Definition more (fs : list JS.str) : JS.str :=
  fs ≫= (λ g, JS.COMMA :: CSVText.quoted g).

(** What a cell contributes to the text: nothing for [null] and
    [undefined], its string conversion otherwise. *)
Definition cellText {V} (toString : V → JS.str) (cell : Helpers.Cell V)
  : JS.str :=
  match cell with
  | Helpers.CNull | Helpers.CUndefined => []
  | _ => Helpers.String_ toString cell
  end.

(** The strings of the cells of a row. *)
Definition rowTexts {V} (toString : V → JS.str) (row : list (Helpers.Cell V))
  : list JS.str :=
  cellText toString <$> row.

End CSVRead.

(** ** [utils/helpers.ts]: [debounce] *)

Module Debounce.

Section Debounce.
(** [Args]: the argument lists the debounced function is called with. *)
Context {Args : Type}.

(** The one effect: [func.apply(this, args)]. *)
Inductive Effect := Apply (args : Args).

(** The variable [timeout] of the closure, as far as it matters: the
    arguments captured by the timer that is still to fire, if there is
    one.  (Before the first call, and once the timer has fired,
    [clearTimeout(timeout)] does nothing.) *)
Abbreviation Timer := (option Args).

(** A call of the debounced function: [clearTimeout(timeout)], then
    [timeout = setTimeout(() => func.apply(this, args), wait)]. *)
Definition debounced (args : Args) : Eff.t Timer Effect unit :=
  λ _, (tt, Some args, []).

(** The timer fires, [wait] milliseconds after the call that set it: its
    callback applies [func].  With no timer set nothing happens. *)
Definition elapse : Eff.t Timer Effect unit :=
  λ timeout,
    match timeout with
    | Some args => (tt, None, [Apply args])
    | None => (tt, None, [])
    end.

(** What happens to a debounced function over time. *)
Inductive Event :=
  | Called (args : Args)
  | Elapsed.

Definition handle (e : Event) : Eff.t Timer Effect unit :=
  match e with
  | Called args => debounced args
  | Elapsed => elapse
  end.

Fixpoint run (es : list Event) : Eff.t Timer Effect unit :=
  match es with
  | [] => Eff.ret tt
  | e :: es' => Eff.bind (handle e) (λ _, run es')
  end.

(** The argument lists of the calls among the events, in order. *)
Definition calls (es : list Event) : list Args :=
  es ≫= (λ e, match e with Called args => [args] | Elapsed => [] end).

End Debounce.
Arguments Effect : clear implicits.
Arguments Event : clear implicits.

End Debounce.

(** ** [stores/layout.ts] and [getCurrentLanguage] *)

Module Layout.

(** What the store reads and writes outside itself: [localStorage], the
    [dir] attribute of the document element, [window.innerWidth], and the
    [locale] ref of [useI18n()]. *)
Record Env := {
  localStorage : gmap string JS.str;
  dir : JS.str;
  innerWidth : Z;
  locale : JS.str;
}.

(** The refs of the store ([tabs] is a constant list and is left out). *)
Record Store := {
  isSidebarOpen : bool;
  isMobile : bool;
}.

(** [l === "ar" ? "rtl" : "ltr"] *)
Definition direction (l : JS.str) : JS.str :=
  if decide (l = JS.lit "ar") then JS.lit "rtl" else JS.lit "ltr".

(** The callback of [watch(locale, ...)]: save the locale, set the
    direction. *)
Definition onLocale (newLocale : JS.str) (env : Env) : Env :=
  {| localStorage := <["language" := newLocale]> env.(localStorage);
     dir := direction newLocale;
     innerWidth := env.(innerWidth);
     locale := env.(locale) |}.

(** The setup function of the store: the refs start as [true] and
    [false]; a saved language that is a non-empty string becomes the
    locale; the watcher, being [immediate], runs once at once. *)
Definition useLayoutStore (env : Env) : Store * Env :=
  let savedLocale := env.(localStorage) !! "language" in
  let env :=
    match savedLocale with
    | Some l =>
        if JS.not_ l then env
        else {| localStorage := env.(localStorage);
                dir := direction l;
                innerWidth := env.(innerWidth);
                locale := l |}
    | None => env
    end in
  ({| isSidebarOpen := true; isMobile := false |},
   onLocale env.(locale) env).

(** [isSidebarOpen.value = !isSidebarOpen.value] *)
Definition toggleSidebar (st : Store) : Store :=
  {| isSidebarOpen := negb st.(isSidebarOpen); isMobile := st.(isMobile) |}.

(** [checkScreenSize]: below 768 pixels the screen is mobile, and then the
    sidebar is toggled. *)
Definition checkScreenSize (env : Env) (st : Store) : Store :=
  let st := {| isSidebarOpen := st.(isSidebarOpen);
               isMobile := bool_decide (env.(innerWidth) < 768) |} in
  if st.(isMobile) then toggleSidebar st else st.

(** A page on which the store is in use: what the store reads and
    writes, and the watcher on [locale] as the scheduler keeps it, that
    is, the value the watcher saw when its callback last ran and whether
    a run of it is queued. *)
Record Page := {
  env : Env;
  seen : JS.str;
  queued : bool;
}.

(** Setting the store up: the [immediate] run of the watcher has seen the
    locale, and nothing is queued. *)
Definition open (e : Env) : Page :=
  let e := (useLayoutStore e).2 in
  {| env := e; seen := e.(locale); queued := false |}.

(** An assignment [locale.value = l]: when the value changes, a run of
    the watcher is queued for the next tick; the callback does not run
    yet. *)
Definition assignLocale (l : JS.str) (p : Page) : Page :=
  if decide (l = p.(env).(locale)) then p
  else {| env := {| localStorage := p.(env).(localStorage);
                    dir := p.(env).(dir);
                    innerWidth := p.(env).(innerWidth);
                    locale := l |};
          seen := p.(seen);
          queued := true |}.

(** The next tick: a queued watcher runs, and calls its callback when the
    locale differs from the one it saw last. *)
Definition flush (p : Page) : Page :=
  if p.(queued) then
    if decide (p.(env).(locale) = p.(seen)) then
      {| env := p.(env); seen := p.(seen); queued := false |}
    else
      {| env := onLocale p.(env).(locale) p.(env);
         seen := p.(env).(locale);
         queued := false |}
  else p.

(** What happens on the page: an assignment to the locale, or the end of
    the current tick. *)
Inductive Event :=
  | Assign (l : JS.str)
  | Tick.

Definition handle (p : Page) (e : Event) : Page :=
  match e with
  | Assign l => assignLocale l p
  | Tick => flush p
  end.

(** The store set up in [e], then the events one after the other. *)
Definition visit (e : Env) (events : list Event) : Page :=
  foldl handle (open e) events.

(** The saved language and the direction are those of the locale the
    watcher saw last, which is the current locale unless a run is
    queued. *)
Definition saved_as_seen (p : Page) : Prop :=
  p.(env).(localStorage) !! "language" = Some p.(seen)
  ∧ p.(env).(dir) = direction p.(seen)
  ∧ (p.(queued) = false → p.(env).(locale) = p.(seen)).

(** What a call of [getCurrentLanguage] comes to: the saved string, the
    [locale] ref itself (shown with its value), or the error that
    [useI18n()] throws when it is called outside a setup function. *)
Inductive Language :=
  | Saved (language : JS.str)
  | LocaleRef (value : JS.str)
  | Throws.

(** [useI18n().locale], read inside a setup function or not. *)
Definition useI18n_locale (in_setup : bool) (e : Env) : Language :=
  if in_setup then LocaleRef e.(locale) else Throws.

(** [getCurrentLanguage] of [helpers.ts]: the saved language when
    [getItem] gives a non-empty string, the locale of [useI18n()]
    otherwise. *)
Definition getCurrentLanguage (in_setup : bool) (e : Env) : Language :=
  match e.(localStorage) !! "language" with
  | Some l => if JS.not_ l then useI18n_locale in_setup e else Saved l
  | None => useI18n_locale in_setup e
  end.

End Layout.

(** ** The create-node modal in use *)

Module ModalSession.
Import CreateNodeModal.

(** [handleClickOutside]: [mounted] tells that [modalRef.value] is set,
    [inside] that the modal contains the target of the click. *)
Definition handleClickOutside (mounted inside : bool) : M unit :=
  if mounted && negb inside then emit close else Eff.ret tt.

(** What a user can do to the modal: type into one of the three inputs
    (the [v-model] bindings assign the refs; the number input assigns the
    number typed, or the empty string when it is cleared), submit the
    form, click somewhere, press the cancel button. *)
Inductive UserEvent :=
  | InputLabel (v : JS.str)
  | InputDescription (v : JS.str)
  | InputEmployees (v : Count)
  | SubmitForm
  | Click (mounted inside : bool)
  | Cancel.

Definition handle (props : Props) (e : UserEvent) : M unit :=
  match e with
  | InputLabel v => assign (set_newNodeLabel v)
  | InputDescription v => assign (set_description v)
  | InputEmployees v => assign (set_numberOfEmployees (Some v))
  | SubmitForm => handleSubmit props
  | Click mounted inside => handleClickOutside mounted inside
  | Cancel => emit close
  end.

Fixpoint run (props : Props) (es : list UserEvent) : M unit :=
  match es with
  | [] => Eff.ret tt
  | e :: es' => Eff.bind (handle props e) (λ _, run props es')
  end.

(** A payload that passed the checks of [validateForm] and names the
    parent given to the modal: label and description not blank, a count
    that is not [null] and for which [< 0] is false. *)
Definition acceptable (props : Props) (n : NewNode.t) : Prop :=
  JS.trim n.(NewNode.label) ≠ []
  ∧ JS.trim n.(NewNode.description) ≠ []
  ∧ (∃ c, n.(NewNode.numberOfEmployees) = Some c ∧ negative c = false)
  ∧ n.(NewNode.parentId) = props.(parentId).

(** The effect is a [submit] event. *)
Definition is_submit (eff : Effect) : bool :=
  match eff with
  | Emit (submit _) => true
  | _ => false
  end.

(** The user event is a submission of the form. *)
Definition is_SubmitForm (e : UserEvent) : bool :=
  match e with
  | SubmitForm => true
  | _ => false
  end.

(** The condition on one effect: a [submit] carries an acceptable
    payload. *)
Definition submits_acceptable (props : Props) (eff : Effect) : Prop :=
  match eff with
  | Emit (submit n) => acceptable props n
  | _ => True
  end.

End ModalSession.

(** ** More sample data *)

Module Demo.

(** A page opened in English, with nothing saved. *)
Definition first_visit : Layout.Env :=
  {| Layout.localStorage := ∅; Layout.dir := [];
     Layout.innerWidth := 1280; Layout.locale := JS.lit "en" |}.

(** What happens on the first visit: the locale is switched to Arabic,
    and the tick ends. *)
Definition switch_to_arabic : list Layout.Event :=
  [Layout.Assign (JS.lit "ar"); Layout.Tick].

(** A later page, opened in English again, over the storage the first
    visit left after switching to Arabic. *)
Definition second_visit : Layout.Env :=
  {| Layout.localStorage :=
       (Layout.visit first_visit switch_to_arabic)
         .(Layout.env).(Layout.localStorage);
     Layout.dir := []; Layout.innerWidth := 375;
     Layout.locale := JS.lit "en" |}.

(** A table whose cells hold a quote character, a comma and a newline. *)
Definition table : list (list (Helpers.Cell bool)) :=
  [[Helpers.CString (JS.lit "a" ++ [JS.QUOTE] ++ JS.lit "b");
    Helpers.COther true];
   [];
   [Helpers.CString (JS.lit "x,y" ++ [JS.LF] ++ JS.lit "z"); Helpers.CNull]].

End Demo.

(* ===================================================================== *)
(** * Part II: properties *)
(* ===================================================================== *)

(** ** The root source selector *)

Section selector.
Import Helpers.
Variable API_ENDPOINTS : API_ENDPOINTS_t.

Abbreviation A := (DEPARTMENTS2 API_ENDPOINTS).
Abbreviation B := (DEPARTMENTS3 API_ENDPOINTS).
Abbreviation select := (getEndpointForRootNodes API_ENDPOINTS).

Lemma select_unfold page :
  select page = JS.index [A; B] (Z.rem (JS.roundToDouble (page - 1)) 2).
Proof. reflexivity. Qed.

Lemma roundToDouble_exact z : Z.abs z < 2 ^ 53 → JS.roundToDouble z = z.
Proof. intros Hz. unfold JS.roundToDouble. by rewrite decide_True. Qed.

(** From [2 ^ 53] on every double is an even integer. *)
Lemma roundToDouble_even z :
  2 ^ 53 ≤ Z.abs z → Z.even (JS.roundToDouble z) = true.
Proof.
  intros Hz. unfold JS.roundToDouble. rewrite decide_False by lia.
  assert (Z.even (2 ^ (Z.log2 (Z.abs z) - 52)) = true) as Hu.
  { assert (53 ≤ Z.log2 (Z.abs z)) by (apply Z.log2_le_pow2; lia).
    by rewrite (Z.even_pow 2 (Z.log2 (Z.abs z) - 52)) by lia. }
  assert (∀ x, Z.even (x * 2 ^ (Z.log2 (Z.abs z) - 52)) = true) as Hmul.
  { intros x. rewrite Z.even_mul, Hu. apply orb_true_r. }
  simpl. repeat case_decide; [apply Hmul..|].
  destruct (Z.even (z / _)); apply Hmul.
Qed.

(** Where the subtraction is exact the selector reads the list at
    [(page - 1) % 2]. *)
Lemma select_exact page :
  Z.abs (page - 1) < 2 ^ 53 →
  select page = JS.index [A; B] (Z.rem (page - 1) 2).
Proof. intros Hp. by rewrite select_unfold, roundToDouble_exact. Qed.

(** Where it is not, the rounded difference is even and the selector
    reads the list at [0]. *)
Lemma select_rounded page :
  2 ^ 53 ≤ Z.abs (page - 1) → select page = Some A.
Proof.
  intros Hp. rewrite select_unfold.
  pose proof (roundToDouble_even _ Hp) as He.
  apply Z.even_spec in He as [k ->].
  by rewrite Z.mul_comm, Z.rem_mul by lia.
Qed.

(** From page 1 on the remainder is the mathematical modulus. *)
Lemma select_from_one page :
  1 ≤ page ≤ 2 ^ 53 →
  select page = [A; B] !! Z.to_nat ((page - 1) mod 2).
Proof.
  intros Hp. rewrite select_exact, Z.rem_mod_nonneg by lia.
  unfold JS.index. case_decide as Hneg; [|done].
  pose proof (Z.mod_pos_bound (page - 1) 2). lia.
Qed.

Lemma select_odd page :
  1 ≤ page ≤ 2 ^ 53 → Z.odd page = true → select page = Some A.
Proof.
  intros Hp Hodd. rewrite select_from_one by done.
  replace ((page - 1) mod 2) with 0; [done|].
  rewrite Zmod_even, Z.even_sub, <-Z.negb_odd, Hodd. done.
Qed.

Lemma select_even page :
  1 ≤ page ≤ 2 ^ 53 → Z.even page = true → select page = Some B.
Proof.
  intros Hp Heven. rewrite select_from_one by done.
  replace ((page - 1) mod 2) with 1; [done|].
  rewrite Zmod_even, Z.even_sub, Heven. done.
Qed.

Lemma select_parity page :
  1 ≤ page ≤ 2 ^ 53 → select page = Some (if Z.odd page then A else B).
Proof.
  intros Hp. destruct (Z.odd page) eqn:Hodd.
  - by apply select_odd.
  - apply select_even; [done|]. by rewrite <-Z.negb_odd, Hodd.
Qed.

(** Below page 1 the remainder is [0] or [-1]; the read at [-1] finds no
    element. *)
Lemma select_below_one page :
  - 2 ^ 53 + 1 < page < 1 →
  select page = if Z.odd page then Some A else None.
Proof.
  intros Hp. rewrite select_exact by lia.
  assert (page - 1 = - (1 - page)) as -> by lia.
  rewrite Z.rem_opp_l', Z.rem_mod_nonneg by lia.
  rewrite Zmod_even, Z.even_sub, <-(Z.negb_odd page). simpl.
  by destruct (Z.odd page).
Qed.

(** Every page from 1 on selects an endpoint. *)
Lemma select_is_Some page : 1 ≤ page → is_Some (select page).
Proof.
  intros Hp. destruct (decide (page ≤ 2 ^ 53)).
  - rewrite select_parity by done. eauto.
  - rewrite select_rounded by lia. eauto.
Qed.

(** C1 (as amended): for every page number [page] with
    [1 <= page <= 2 ^ 53], the range in which [page - 1] is computed
    exactly, the selector returns the endpoint at index
    [(page - 1) mod N] of the ordered endpoint list (N = 2: DEPARTMENTS2,
    DEPARTMENTS3).  Within that range the selection has period N, any N
    consecutive pages reach every endpoint, and pages 1, 2, 3, 4 select
    A, B, A, B.  Every page above [2 ^ 53] selects the first endpoint. *)
Theorem C1_round_robin_selection (page : Z) :
  1 ≤ page ≤ 2 ^ 53 →
  let N := Z.of_nat (length (endpoints API_ENDPOINTS)) in
  getEndpointForRootNodes API_ENDPOINTS page
    = endpoints API_ENDPOINTS !! Z.to_nat ((page - 1) mod N)
  ∧ is_Some (getEndpointForRootNodes API_ENDPOINTS page)
  ∧ (page + N ≤ 2 ^ 53 →
       getEndpointForRootNodes API_ENDPOINTS (page + N)
       = getEndpointForRootNodes API_ENDPOINTS page)
  ∧ (page + N - 1 ≤ 2 ^ 53 →
       ∀ e, e ∈ endpoints API_ENDPOINTS →
         ∃ k, 0 ≤ k < N ∧
              getEndpointForRootNodes API_ENDPOINTS (page + k) = Some e)
  ∧ getEndpointForRootNodes API_ENDPOINTS <$> [1; 2; 3; 4]
    = [Some (DEPARTMENTS2 API_ENDPOINTS); Some (DEPARTMENTS3 API_ENDPOINTS);
       Some (DEPARTMENTS2 API_ENDPOINTS); Some (DEPARTMENTS3 API_ENDPOINTS)]
  ∧ (∀ big, 2 ^ 53 < big →
       getEndpointForRootNodes API_ENDPOINTS big
       = Some (DEPARTMENTS2 API_ENDPOINTS)).
Proof.
  intros Hp N. change N with 2.
  split_and!.
  - by apply select_from_one.
  - apply select_is_Some. lia.
  - intros Hn. rewrite !select_parity by lia.
    replace (page + 2) with (page + 2 * 1) by lia.
    by rewrite Z.odd_add_mul_2.
  - intros Hn e He. change (endpoints API_ENDPOINTS) with [A; B] in He.
    apply elem_of_cons in He as [->|He];
      [|apply list_elem_of_singleton in He as ->].
    + destruct (Z.odd page) eqn:Hodd.
      * exists 0. split; [lia|]. rewrite Z.add_0_r. by apply select_odd.
      * exists 1. split; [lia|]. apply select_odd; [lia|].
        by rewrite Z.odd_add, Hodd.
    + destruct (Z.odd page) eqn:Hodd.
      * exists 1. split; [lia|]. apply select_even; [lia|].
        by rewrite Z.even_add, <-Z.negb_odd, Hodd.
      * exists 0. split; [lia|]. rewrite Z.add_0_r.
        apply select_even; [lia|]. by rewrite <-Z.negb_odd, Hodd.
  - reflexivity.
  - intros big Hbig. apply select_rounded. lia.
Qed.

(** C8: page 0 lies outside the 1-based range and selects nothing: the
    index is [(0 - 1) % 2 = -1] and the array read is [undefined].  An
    endpoint is returned for every page from 1 on; no endpoint is
    returned exactly for the even pages between [- 2 ^ 53] and 1 (further
    down the rounded difference is even and the first endpoint is
    read). *)
Theorem C8_page_zero_selects_nothing :
  getEndpointForRootNodes API_ENDPOINTS 0 = None
  ∧ JS.rem (JS.sub 0 1) 2 = -1
  ∧ (∀ page, 1 ≤ page →
       is_Some (getEndpointForRootNodes API_ENDPOINTS page))
  ∧ (∀ page, getEndpointForRootNodes API_ENDPOINTS page = None
             ↔ - 2 ^ 53 < page < 1 ∧ Z.even page = true).
Proof.
  split_and!; [done|done|apply select_is_Some|].
  intros page. destruct (decide (1 ≤ page)) as [Hp|Hp].
  { destruct (select_is_Some page Hp) as [e ->]. split; [done|lia]. }
  destruct (decide (- 2 ^ 53 + 1 < page)) as [Hq|Hq].
  - rewrite select_below_one, <-Z.negb_odd by lia.
    destruct (Z.odd page); split;
      (done || (intros [_ ?]; done) || (split; [lia|done])).
  - rewrite select_rounded by lia. split; [done|].
    intros [Hr Heven]. assert (page = - 2 ^ 53 + 1) as -> by lia. done.
Qed.

End selector.

(** C1 at page 3 of the sample endpoint table: the first endpoint. *)
Lemma C1_round_robin_selection_witness :
  1 ≤ 3 ≤ 2 ^ 53 ∧
  Helpers.getEndpointForRootNodes Sample.endpoints 3
    = Some (JS.lit "/departments2").
Proof.
  split; [lia|].
  destruct (C1_round_robin_selection Sample.endpoints 3 ltac:(lia)) as [H _].
  rewrite H. reflexivity.
Defined.

(** C1 as first stated, for every page from 1 on, fails at page
    [2 ^ 53 + 2], a page number that is a double: [page - 1] is odd and
    rounds to [2 ^ 53], so the selector reads index 0 and returns the
    first endpoint, where index [(page - 1) mod 2 = 1] holds the
    second. *)
Lemma C1_round_robin_selection_counterexample :
  let page := 2 ^ 53 + 2 in
  1 ≤ page
  ∧ JS.roundToDouble page = page
  ∧ Helpers.getEndpointForRootNodes Sample.endpoints page
    = Some (JS.lit "/departments2")
  ∧ Helpers.endpoints Sample.endpoints !! Z.to_nat ((page - 1) mod 2)
    = Some (JS.lit "/departments3")
  ∧ Helpers.getEndpointForRootNodes Sample.endpoints page
    ≠ Helpers.endpoints Sample.endpoints !! Z.to_nat ((page - 1) mod 2).
Proof. vm_compute. split_and!; (done || lia || discriminate). Qed.

(** ** Children of a parent *)

Section children.
Import Tree Helpers.

(** C2: [filterByExactParentID data X] holds exactly the nodes of [data]
    whose [parentId] equals [X] ([X] may be the null root sentinel): a node
    is in the result iff it is in [data] with that very [parentId], so no
    node with another [parentId] (a descendant, a sibling of [X], an id
    that [X] is a prefix of) appears. *)
Theorem C2_children_have_exact_parent (data : list Node) (X : option JS.str) :
  (∀ n, n ∈ filterByExactParentID data X ↔ n ∈ data ∧ n.(parentId) = X)
  ∧ Forall (λ n, n.(parentId) = X) (filterByExactParentID data X)
  ∧ (∀ n, n ∈ data → n.(parentId) ≠ X → n ∉ filterByExactParentID data X).
Proof.
  unfold filterByExactParentID. split_and!.
  - intros n. rewrite list_elem_of_filter. tauto.
  - apply Forall_forall. intros n Hn.
    by apply list_elem_of_filter in Hn as [? _].
  - intros n _ Hne Hn. by apply list_elem_of_filter in Hn as [? _].
Qed.

Lemma sublist_two_elements {A} (l k : list A) a b l1 l2 l3 :
  l `sublist_of` k →
  l = l1 ++ a :: l2 ++ b :: l3 →
  ∃ k1 k2 k3, k = k1 ++ a :: k2 ++ b :: k3.
Proof.
  intros Hsub ->.
  apply sublist_app_l in Hsub as (k1 & k' & -> & _ & Hsub).
  apply sublist_cons_l in Hsub as (k1' & k'' & -> & Hsub).
  apply sublist_app_l in Hsub as (k2 & k3' & -> & _ & Hsub).
  apply sublist_cons_l in Hsub as (k2' & k3 & -> & _).
  exists (k1 ++ k1'), (k2 ++ k2'), k3. by rewrite <-!app_assoc.
Qed.

(** C7: the result of [filterByExactParentID] is a subsequence of its
    input, so the children of one parent keep the relative order in which
    the input (the backend's answer) lists them: if [a] comes before [b] in
    the result, [a] comes before [b] in the input. *)
Theorem C7_children_keep_input_order (data : list Node) (X : option JS.str) :
  filterByExactParentID data X `sublist_of` data
  ∧ (∀ a b l1 l2 l3,
       filterByExactParentID data X = l1 ++ a :: l2 ++ b :: l3 →
       ∃ d1 d2 d3, data = d1 ++ a :: d2 ++ b :: d3).
Proof.
  assert (filterByExactParentID data X `sublist_of` data) as Hsub
    by apply sublist_filter.
  split; [done|]. intros a b l1 l2 l3 Heq.
  by eapply sublist_two_elements.
Qed.

(** Filtering twice by the same parent changes nothing more, and the
    children of one parent hold no child of another: each node is listed
    under exactly one parent, its own. *)
Theorem filterByExactParentID_partitions (data : list Node)
    (X : option JS.str) :
  filterByExactParentID (filterByExactParentID data X) X
  = filterByExactParentID data X
  ∧ (∀ Y, Y ≠ X →
       filterByExactParentID (filterByExactParentID data X) Y = [])
  ∧ (∀ n, n ∈ data → n ∈ filterByExactParentID data n.(parentId)).
Proof.
  unfold filterByExactParentID. split_and!.
  - induction data as [|n data IH]; [done|].
    destruct (decide (n.(parentId) = X)) as [Hn|Hn].
    + rewrite !filter_cons_True by done. by rewrite IH.
    + by rewrite filter_cons_False.
  - intros Y HY. induction data as [|n data IH]; [done|].
    destruct (decide (n.(parentId) = X)) as [Hn|Hn].
    + rewrite filter_cons_True by done.
      rewrite filter_cons_False by congruence. done.
    + by rewrite filter_cons_False.
  - intros n Hn. by apply list_elem_of_filter.
Qed.

(** On the sample repository: the children of node 1 are nodes 2 and 11,
    in that order; node 12, whose parent id 11 merely starts with 1, and
    the grandchild 21 are not among them. *)
Example children_of_node_1 :
  filterByExactParentID Sample.repo (Some (JS.lit "1"))
  = [Sample.node "2" (Some "1") "Sales" 7;
     Sample.node "11" (Some "1") "Research" 5].
Proof. reflexivity. Qed.

Example children_of_root :
  filterByExactParentID Sample.repo None
  = [Sample.node "1" None "Head office" 12].
Proof. reflexivity. Qed.

End children.

(** ** The button *)

Section button.
Import Button.
Context {Fn : Type}.

(** C9: a click calls the supplied [action] iff both [disabled] and
    [loading] are false, and then calls it once; when either prop is true
    the click performs no call at all. *)
Theorem C9_click_calls_action_iff_enabled (props : Props Fn) :
  let tr := Eff.trace (handleClick props tt) in
  (Call props.(action) ∈ tr
     ↔ props.(disabled) = false ∧ props.(loading) = false)
  ∧ (props.(disabled) = false ∧ props.(loading) = false →
       tr = [Call props.(action)])
  ∧ (props.(disabled) = true ∨ props.(loading) = true → tr = []).
Proof.
  unfold handleClick.
  destruct props as [[] [] f]; simpl; split_and!;
    rewrite ?list_elem_of_singleton, ?elem_of_nil;
    try tauto; intuition congruence.
Qed.

End button.

(** ** The create-node form *)

Section modal.
Import CreateNodeModal.

(** A string is empty after trimming iff it holds white space only. *)
Lemma trimStart_nil s : JS.trimStart s = [] ↔ Forall (λ c, JS.isWhiteSpace c = true) s.
Proof.
  induction s as [|c s IH]; simpl; [by split|].
  destruct (JS.isWhiteSpace c) eqn:Hc.
  - rewrite IH. split; [by constructor|by inversion 1].
  - split; [done|]. inversion 1; congruence.
Qed.

Lemma trimStart_head s c s' :
  JS.trimStart s = c :: s' → JS.isWhiteSpace c = false.
Proof.
  induction s as [|d s IH]; simpl; [done|].
  destruct (JS.isWhiteSpace d) eqn:Hd; [done|]. by intros [= <- _].
Qed.

Lemma reverse_eq_nil {A} (l : list A) : reverse l = [] ↔ l = [].
Proof.
  split; [|by intros ->].
  intros H. apply (f_equal length) in H. rewrite length_reverse in H.
  by destruct l.
Qed.

Lemma trim_nil s : JS.trim s = [] ↔ Forall (λ c, JS.isWhiteSpace c = true) s.
Proof.
  unfold JS.trim, JS.trimEnd.
  rewrite reverse_eq_nil, trimStart_nil, Forall_reverse.
  split.
  - intros H. destruct (JS.trimStart s) as [|c s'] eqn:Hs.
    + by apply trimStart_nil.
    + apply trimStart_head in Hs. inversion H; congruence.
  - intros H. apply trimStart_nil in H. rewrite H. constructor.
Qed.

Lemma not_trim_true s : JS.not_ (JS.trim s) = true ↔ JS.trim s = [].
Proof. unfold JS.not_. by rewrite bool_decide_eq_true. Qed.

Lemma Object_keys_length (o : gmap string string) :
  length (Object_keys o) = 0%nat ↔ o = ∅.
Proof.
  unfold Object_keys. rewrite length_fmap, length_map_to_list.
  apply map_size_empty_iff.
Qed.

Lemma employees_check r :
  bool_decide (r.(numberOfEmployees) = None)
  || from_option negative false r.(numberOfEmployees) = true
  ↔ employees_violated r.
Proof.
  unfold employees_violated. destruct (numberOfEmployees r) as [c|]; simpl.
  - naive_solver.
  - naive_solver.
Qed.

Lemma validateForm_run r :
  validateForm r
  = (bool_decide (errors_of r = ∅),
     store (set_errorMessages (errors_of r)) r,
     [Write (set_errorMessages (errors_of r))]).
Proof.
  unfold errors_of, validateForm, Eff.bind, Eff.get, assign, Eff.update,
    Eff.ret, Eff.state. simpl. repeat f_equal.
  apply bool_decide_ext, Object_keys_length.
Qed.

Lemma errors_of_lookup r k v :
  errors_of r !! k = Some v ↔
    (k = "label" ∧ v = "empty_node_label" ∧ label_violated r)
    ∨ (k = "description" ∧ v = "empty_description" ∧ description_violated r)
    ∨ (k = "numberOfEmployees" ∧ v = "invalid_employee_count"
       ∧ employees_violated r).
Proof.
  unfold errors_of, validateForm, Eff.bind, Eff.get, assign, Eff.update,
    Eff.ret, Eff.state. simpl.
  rewrite <-employees_check.
  unfold label_violated, description_violated.
  rewrite <-!not_trim_true.
  destruct (JS.not_ (JS.trim (newNodeLabel r)));
    destruct (JS.not_ (JS.trim (CreateNodeModal.description r)));
    destruct (_ || _);
    rewrite ?lookup_insert_Some, ?lookup_empty; naive_solver.
Qed.

Lemma errors_of_empty r :
  errors_of r = ∅ ↔
    ¬ label_violated r ∧ ¬ description_violated r ∧ ¬ employees_violated r.
Proof.
  rewrite map_empty. split.
  - intros He. split_and!; intros Hv.
    + specialize (He "label"). apply eq_None_not_Some in He. apply He.
      eexists. apply errors_of_lookup. eauto.
    + specialize (He "description"). apply eq_None_not_Some in He. apply He.
      eexists. apply errors_of_lookup. eauto 6.
    + specialize (He "numberOfEmployees"). apply eq_None_not_Some in He.
      apply He. eexists. apply errors_of_lookup. eauto 6.
  - intros (Hl & Hd & He) k. apply eq_None_not_Some. intros [v Hv].
    apply errors_of_lookup in Hv. naive_solver.
Qed.

Lemma negative_count n : negative (count n) = true ↔ n < 0.
Proof.
  unfold negative, count, JS.lt0.
  by rewrite bool_decide_eq_true, <-Z2Qc_inj_lt.
Qed.

(** [validateForm] reports the fields it finds wrong all at once:
    [errorMessages] maps [label] to [empty_node_label] iff the label is
    empty after trimming, [description] to [empty_description] iff the
    description is empty after trimming, [numberOfEmployees] to
    [invalid_employee_count] iff the count is [null] or below zero, and
    holds nothing else.  An empty label together with a negative count
    yields both errors.  The function returns [true] iff it found nothing
    wrong; a count that is the empty string of a cleared input, or [NaN],
    is not found wrong. *)
Theorem validateForm_reports_all_violations (r : Refs) :
  let errors := errorMessages (Eff.state (validateForm r)) in
  (∀ k v, errors !! k = Some v ↔
     (k = "label" ∧ v = "empty_node_label"
        ∧ JS.trim r.(newNodeLabel) = [])
     ∨ (k = "description" ∧ v = "empty_description"
        ∧ JS.trim r.(CreateNodeModal.description) = [])
     ∨ (k = "numberOfEmployees" ∧ v = "invalid_employee_count"
        ∧ (r.(numberOfEmployees) = None
           ∨ ∃ c, r.(numberOfEmployees) = Some c ∧ negative c = true)))
  ∧ (∀ c, JS.trim r.(newNodeLabel) = [] →
          r.(numberOfEmployees) = Some c → negative c = true →
          errors !! "label" = Some "empty_node_label"
          ∧ errors !! "numberOfEmployees" = Some "invalid_employee_count"
          ∧ Eff.result (validateForm r) = false)
  ∧ (Eff.result (validateForm r) = true ↔
       JS.trim r.(newNodeLabel) ≠ []
       ∧ JS.trim r.(CreateNodeModal.description) ≠ []
       ∧ ∃ c, r.(numberOfEmployees) = Some c ∧ negative c = false)
  ∧ (∀ n, negative (count n) = true ↔ n < 0)
  ∧ negative EmptyString = false
  ∧ negative (Number JS.NaN) = false.
Proof.
  intros errors. subst errors. fold (errors_of r).
  assert (Eff.result (validateForm r) = true ↔ errors_of r = ∅) as Hres.
  { rewrite validateForm_run. unfold Eff.result. simpl.
    apply bool_decide_eq_true. }
  split_and!; [| | |apply negative_count|done|done].
  - apply errors_of_lookup.
  - intros c Hl Hc Hneg. split_and!.
    + apply errors_of_lookup. left. done.
    + apply errors_of_lookup. right. right.
      unfold employees_violated. eauto 6.
    + apply not_true_is_false. rewrite Hres, errors_of_empty.
      intros (Hnl & _). by apply Hnl.
  - rewrite Hres, errors_of_empty.
    unfold label_violated, description_violated, employees_violated.
    destruct (numberOfEmployees r) as [c|].
    + split.
      * intros (? & ? & Hc). split_and!; [done..|]. exists c. split; [done|].
        destruct (negative c) eqn:Hneg; [|done]. exfalso. apply Hc. right.
        by exists c.
      * intros (? & ? & c' & [= <-] & Hneg). split_and!; [done..|].
        intros [|(c' & [= <-] & ?)]; [done|congruence].
    + split.
      * intros (_ & _ & Hc). exfalso. apply Hc. by left.
      * by intros (_ & _ & c & ? & _).
Qed.

End modal.

Section submit.
Import CreateNodeModal.

Lemma handleSubmit_invalid props r :
  errors_of r ≠ ∅ →
  handleSubmit props r
  = (tt,
     store (set_isInputValid false) (store (set_errorMessages (errors_of r)) r),
     [Write (set_errorMessages (errors_of r)); Write (set_isInputValid false)]).
Proof.
  intros Hne. unfold handleSubmit, Eff.bind. rewrite validateForm_run.
  by rewrite bool_decide_eq_false_2.
Qed.

Lemma handleSubmit_valid props r :
  errors_of r = ∅ →
  handleSubmit props r
  = (tt,
     {| newNodeLabel := []; description := []; numberOfEmployees := None;
        isInputValid := true; errorMessages := ∅ |},
     [Write (set_errorMessages ∅); Write (set_isInputValid true);
      Emit (submit {| NewNode.label := r.(newNodeLabel);
                      NewNode.parentId := props.(parentId);
                      NewNode.description := r.(description);
                      NewNode.numberOfEmployees := r.(numberOfEmployees) |});
      Write (set_newNodeLabel []); Write (set_description []);
      Write (set_numberOfEmployees None); Emit close]).
Proof.
  intros He. unfold handleSubmit, Eff.bind. rewrite validateForm_run, He.
  reflexivity.
Qed.

(** C6: the three inputs are reset only after the submit event, and never
    when validation fails.  If [validateForm] fails, [handleSubmit] emits
    nothing, assigns to none of the three inputs and leaves their values
    as they were.  If it passes, the effects are, in this order: the
    [submit] event carrying the node built from the refs and the
    [parentId] prop, the three resets, the [close] event.  In any run, an
    assignment to an input is preceded by that [submit] event. *)
Theorem C6_inputs_reset_only_after_submit (props : Props) (r : Refs) :
  let out := handleSubmit props r in
  let valid := Eff.result (validateForm r) in
  let newNode :=
    {| NewNode.label := r.(newNodeLabel);
       NewNode.parentId := props.(parentId);
       NewNode.description := r.(description);
       NewNode.numberOfEmployees := r.(numberOfEmployees) |} in
  (valid = false →
     (∀ e, Emit e ∉ Eff.trace out)
     ∧ (∀ a, Write a ∈ Eff.trace out → writes_input a = false)
     ∧ (Eff.state out).(newNodeLabel) = r.(newNodeLabel)
     ∧ (Eff.state out).(description) = r.(description)
     ∧ (Eff.state out).(numberOfEmployees) = r.(numberOfEmployees))
  ∧ (valid = true →
     Eff.trace out
     = [Write (set_errorMessages ∅); Write (set_isInputValid true);
        Emit (submit newNode);
        Write (set_newNodeLabel []); Write (set_description []);
        Write (set_numberOfEmployees None); Emit close]
     ∧ (Eff.state out).(newNodeLabel) = []
     ∧ (Eff.state out).(description) = []
     ∧ (Eff.state out).(numberOfEmployees) = None)
  ∧ (∀ pre a post,
       Eff.trace out = pre ++ Write a :: post → writes_input a = true →
       valid = true ∧ Emit (submit newNode) ∈ pre).
Proof.
  intros out valid newNode. subst out valid newNode.
  rewrite validateForm_run. unfold Eff.result. simpl.
  destruct (decide (errors_of r = ∅)) as [He|He].
  - rewrite handleSubmit_valid, bool_decide_eq_true_2 by done.
    unfold Eff.trace, Eff.state. simpl.
    split_and!; [done|done|].
    intros pre a post Heq Hw. split; [done|].
    do 3 (destruct pre as [|? pre]; simplify_eq/=).
    set_solver.
  - rewrite handleSubmit_invalid, bool_decide_eq_false_2 by done.
    unfold Eff.trace, Eff.state. simpl.
    split_and!; [|done|].
    + intros _. split_and!; [| |done..].
      * intros e. rewrite !elem_of_cons, elem_of_nil. naive_solver.
      * intros a. rewrite !elem_of_cons, elem_of_nil.
        intros [[= ->]|[[= ->]|[]]]; done.
    + intros pre a post Heq Hw.
      do 3 (destruct pre as [|? pre]; simplify_eq/=).
Qed.

(** C3: the rule that an absent count yields [invalid_employee_count] is
    not kept for a number input that was filled in and then cleared: the
    ref then holds the empty string, which is neither [null] nor below
    zero, so [validateForm] returns [true] with no error and
    [handleSubmit] emits [submit] with no count.  The same holds of
    [NaN]. *)
Theorem C3_cleared_count_passes_validation :
  Eff.result (validateForm Sample.cleared) = true
  ∧ errorMessages (Eff.state (validateForm Sample.cleared)) = ∅
  ∧ Eff.trace (handleSubmit {| parentId := None |} Sample.cleared)
    = [Write (set_errorMessages ∅); Write (set_isInputValid true);
       Emit (submit {| NewNode.label := JS.lit "Support";
                       NewNode.parentId := None;
                       NewNode.description := JS.lit "Help desk";
                       NewNode.numberOfEmployees := Some EmptyString |});
       Write (set_newNodeLabel []); Write (set_description []);
       Write (set_numberOfEmployees None); Emit close]
  ∧ (∀ r, r.(numberOfEmployees) = Some EmptyString
          ∨ r.(numberOfEmployees) = Some (Number JS.NaN) →
          errorMessages (Eff.state (validateForm r)) !! "numberOfEmployees"
          = None).
Proof.
  split_and!; [by vm_compute..|].
  intros r Hr. fold (errors_of r). apply eq_None_not_Some. intros [v Hv].
  apply errors_of_lookup in Hv as [(? & _)|[(? & _)|(_ & _ & Hc)]];
    [done..|].
  destruct Hc as [Hc|(c & Hc & Hneg)]; destruct Hr as [Hr|Hr];
    rewrite Hr in Hc; simplify_eq; done.
Qed.

(** [validateForm] assigns to [errorMessages] only, replacing whatever
    it held: the inputs and [isInputValid] keep their values, and the
    errors found do not depend on the errors shown before. *)
Theorem validateForm_frame (r : Refs) :
  let out := validateForm r in
  (Eff.state out).(newNodeLabel) = r.(newNodeLabel)
  ∧ (Eff.state out).(description) = r.(description)
  ∧ (Eff.state out).(numberOfEmployees) = r.(numberOfEmployees)
  ∧ (Eff.state out).(isInputValid) = r.(isInputValid)
  ∧ Eff.trace out = [Write (set_errorMessages (errors_of r))]
  ∧ (∀ shown, errors_of (store (set_errorMessages shown) r) = errors_of r).
Proof.
  intros out. subst out. rewrite validateForm_run.
  unfold Eff.state, Eff.trace. simpl. split_and!; done.
Qed.

(** After a successful submit the form is cleared, so submitting again at
    once is rejected with all three errors and emits nothing. *)
Theorem handleSubmit_twice (props : Props) (r : Refs) :
  Eff.result (validateForm r) = true →
  let r' := Eff.state (handleSubmit props r) in
  Eff.result (validateForm r') = false
  ∧ Eff.trace (handleSubmit props r')
    = [Write (set_errorMessages
         (<["label" := "empty_node_label"]>
            (<["description" := "empty_description"]>
               (<["numberOfEmployees" := "invalid_employee_count"]> ∅))));
       Write (set_isInputValid false)].
Proof.
  rewrite validateForm_run. unfold Eff.result. simpl.
  intros He%bool_decide_eq_true. rewrite handleSubmit_valid by done.
  unfold Eff.state. simpl. split; vm_compute; reflexivity.
Qed.

Lemma handleSubmit_twice_witness :
  Eff.result (validateForm Sample.filled) = true
  ∧ Eff.result
      (validateForm
         (Eff.state (handleSubmit {| parentId := None |} Sample.filled)))
    = false.
Proof.
  assert (Eff.result (validateForm Sample.filled) = true) as Hv
    by (vm_compute; reflexivity).
  split; [done|].
  by destruct (handleSubmit_twice {| parentId := None |} Sample.filled Hv)
    as [H _].
Defined.

(** A valid form: [submit] carries the label as typed, then the resets,
    then [close]. *)
Example handleSubmit_filled :
  Eff.trace (handleSubmit {| parentId := Some (JS.lit "1") |} Sample.filled)
  = [Write (set_errorMessages ∅); Write (set_isInputValid true);
     Emit (submit {| NewNode.label := JS.lit " Support ";
                     NewNode.parentId := Some (JS.lit "1");
                     NewNode.description := JS.lit "Help desk";
                     NewNode.numberOfEmployees := Some (count 4) |});
     Write (set_newNodeLabel []); Write (set_description []);
     Write (set_numberOfEmployees None); Emit close].
Proof. vm_compute. reflexivity. Qed.

(** A blank label with a negative count: both errors, no event, inputs
    untouched. *)
Example handleSubmit_blank_negative :
  handleSubmit {| parentId := None |} Sample.blank_negative
  = (tt,
     {| newNodeLabel := JS.lit "   ";
        description := JS.lit "Help desk";
        numberOfEmployees := Some (count (-1));
        isInputValid := false;
        errorMessages :=
          <["label" := "empty_node_label"]>
            (<["numberOfEmployees" := "invalid_employee_count"]> ∅) |},
     [Write (set_errorMessages
        (<["label" := "empty_node_label"]>
           (<["numberOfEmployees" := "invalid_employee_count"]> ∅)));
      Write (set_isInputValid false)]).
Proof. vm_compute. reflexivity. Qed.

(** The untouched form fails all three rules. *)
Example validateForm_setup :
  validateForm setup
  = (false,
     {| newNodeLabel := []; description := []; numberOfEmployees := None;
        isInputValid := true;
        errorMessages :=
          <["label" := "empty_node_label"]>
            (<["description" := "empty_description"]>
               (<["numberOfEmployees" := "invalid_employee_count"]> ∅)) |},
     [Write (set_errorMessages
        (<["label" := "empty_node_label"]>
           (<["description" := "empty_description"]>
              (<["numberOfEmployees" := "invalid_employee_count"]> ∅))))]).
Proof. vm_compute. reflexivity. Qed.

End submit.

(** ** The exported CSV text *)

Section csv.
Import Helpers.
Context {V : Type} (toString : V → JS.str).

Lemma replace_all_doubled s :
  JS.replace_all JS.QUOTE [JS.QUOTE; JS.QUOTE] s = CSVText.doubled s.
Proof.
  unfold JS.replace_all. induction s as [|c s IH]; [done|].
  rewrite bind_cons, IH. simpl.
  destruct (N.eqb_spec c JS.QUOTE) as [->|Hne].
  - by rewrite decide_True.
  - by rewrite decide_False.
Qed.

Lemma join_comma fields : JS.join [JS.COMMA] fields = CSVText.line fields.
Proof.
  induction fields as [|f fs IH]; [done|].
  destruct fs as [|f' fs]; [done|]. simpl in *. by rewrite IH.
Qed.

Lemma join_newline ls : JS.join [JS.LF] ls = CSVText.lines ls.
Proof.
  induction ls as [|l ls IH]; [done|].
  destruct ls as [|l' ls]; [done|]. simpl in *. by rewrite IH.
Qed.

Lemma csvHeader_quoted header : csvHeader header = CSVText.quoted header.
Proof. unfold csvHeader. by rewrite replace_all_doubled. Qed.

Lemma csvCell_field cell : csvCell toString cell = CSVText.field toString cell.
Proof.
  destruct cell; simpl; try done;
    unfold CSVText.quoted; by rewrite replace_all_doubled.
Qed.

Lemma undoubled_doubled s : CSVText.undoubled (CSVText.doubled s) = Some s.
Proof.
  induction s as [|c s IH]; [done|]. simpl.
  destruct (N.eqb_spec c JS.QUOTE) as [->|Hne]; simpl.
  - by rewrite IH.
  - destruct (N.eqb_spec c JS.QUOTE); [done|]. by rewrite IH.
Qed.

Lemma unquoted_quoted s : CSVText.unquoted (CSVText.quoted s) = Some s.
Proof.
  unfold CSVText.unquoted, CSVText.quoted. simpl.
  rewrite reverse_snoc. simpl. rewrite reverse_involutive.
  apply undoubled_doubled.
Qed.

(** C10: the text built by [exportToCSV] is the header line, a newline,
    and one line per row, the lines separated by newlines; each line is
    its fields separated by commas; each header and each cell is wrapped in
    quote characters with its own quote characters doubled (so that the
    field reads back to the original text), and a [null] or [undefined]
    cell becomes the empty quoted field, two quote characters. *)
Theorem C10_exportToCSV_text (rows : list (list (Cell V)))
    (headers : list JS.str) :
  exportToCSV toString rows headers = CSVText.text toString headers rows
  ∧ csvHeaders headers = CSVText.line (CSVText.quoted <$> headers)
  ∧ csvRows toString rows
    = CSVText.lines ((λ row, CSVText.line (csvCell toString <$> row)) <$> rows)
  ∧ length ((λ row, CSVText.line (csvCell toString <$> row)) <$> rows)
    = length rows
  ∧ (∀ header, CSVText.unquoted (csvHeader header) = Some header)
  ∧ (∀ cell, cell ≠ CNull → cell ≠ CUndefined →
       CSVText.unquoted (csvCell toString cell) = Some (String_ toString cell))
  ∧ csvCell toString CNull = [JS.QUOTE; JS.QUOTE]
  ∧ csvCell toString CUndefined = [JS.QUOTE; JS.QUOTE].
Proof.
  assert (csvHeaders headers = CSVText.line (CSVText.quoted <$> headers))
    as Hh.
  { unfold csvHeaders. rewrite join_comma. f_equal.
    apply list_fmap_ext. intros _ h _. apply csvHeader_quoted. }
  assert (csvRows toString rows
    = CSVText.lines ((λ row, CSVText.line (csvCell toString <$> row)) <$> rows))
    as Hr.
  { unfold csvRows. rewrite join_newline. f_equal.
    apply list_fmap_ext. intros _ row _. apply join_comma. }
  split_and!; [|done|done|by rewrite length_fmap|..|done|done].
  - unfold exportToCSV, CSVText.text. rewrite Hh, Hr. simpl.
    do 3 f_equal. apply list_fmap_ext. intros _ row _. f_equal.
    apply list_fmap_ext. intros _ cell _. apply csvCell_field.
  - intros header. rewrite csvHeader_quoted. apply unquoted_quoted.
  - intros cell Hn Hu. rewrite csvCell_field.
    destruct cell; simpl; try done; apply unquoted_quoted.
Qed.

End csv.

(** A header row and two rows: a cell with a quote character inside, a
    boolean, a [null] and an [undefined] cell. *)
Example exportToCSV_sample :
  let q := [JS.QUOTE] in
  Helpers.exportToCSV Sample.string_of_bool
    [[Helpers.CString (JS.lit "6" ++ q); Helpers.COther true];
     [Helpers.CNull; Helpers.CUndefined]]
    [JS.lit "size"; JS.lit "in stock"]
  = q ++ JS.lit "size" ++ q ++ JS.lit "," ++ q ++ JS.lit "in stock" ++ q
    ++ [JS.LF]
    ++ q ++ JS.lit "6" ++ q ++ q ++ q ++ JS.lit "," ++ q ++ JS.lit "true" ++ q
    ++ [JS.LF]
    ++ q ++ q ++ JS.lit "," ++ q ++ q.
Proof. reflexivity. Qed.

(** With no rows the text is the header line and the newline after it. *)
Example exportToCSV_no_rows :
  Helpers.exportToCSV Sample.string_of_bool [] [JS.lit "size"]
  = [JS.QUOTE] ++ JS.lit "size" ++ [JS.QUOTE] ++ [JS.LF].
Proof. reflexivity. Qed.

(** ** Rollback of an optimistic insert *)

Section repository.
Import Tree Repository.

Lemma elem_of_id_set i (repo : Repository.t) :
  i ∈ id_set repo ↔ ∃ n, n ∈ repo ∧ n.(id) = i.
Proof.
  unfold id_set. rewrite elem_of_list_to_set, list_elem_of_fmap.
  naive_solver.
Qed.

Lemma id_set_cons n (repo : Repository.t) :
  id_set (n :: repo) = {[n.(id)]} ∪ id_set repo.
Proof. reflexivity. Qed.

Lemma upsert_fresh n repo :
  id n ∉ id_set repo → upsert n repo = repo ++ [n].
Proof.
  induction repo as [|m repo IH]; [done|].
  rewrite id_set_cons. intros Hfresh. simpl.
  rewrite decide_False by set_solver.
  rewrite IH by set_solver. done.
Qed.

Lemma remove_fresh i repo : i ∉ id_set repo → remove i repo = repo.
Proof.
  unfold remove. induction repo as [|m repo IH]; [done|].
  rewrite id_set_cons. intros Hfresh.
  rewrite filter_cons_True by set_solver.
  rewrite IH by set_solver. done.
Qed.

Lemma remove_absent i repo : i ∉ id_set (remove i repo).
Proof.
  rewrite elem_of_id_set. intros (n & Hn & Hid).
  apply list_elem_of_filter in Hn as [Hne _]. done.
Qed.

(** C5: when the temporary node carries an id that no stored node has
    (ids are unique in the repository), rolling back a rejected creation
    undoes the optimistic insert: the repository is the one from before
    the insert, with the same id set and the same children under every
    parent; the temporary id, present after the insert, is gone. *)
Theorem C5_rollback_restores_repository (repo : Repository.t) (tmp : Node) :
  id tmp ∉ id_set repo →
  id_set (rollback tmp (optimisticInsert tmp repo)) = id_set repo
  ∧ rollback tmp (optimisticInsert tmp repo) = repo
  ∧ id tmp ∈ id_set (optimisticInsert tmp repo)
  ∧ (id tmp ∉ id_set (rollback tmp (optimisticInsert tmp repo)))
  ∧ (∀ X, childrenOf X (rollback tmp (optimisticInsert tmp repo))
          = childrenOf X repo).
Proof.
  intros Hfresh.
  assert (rollback tmp (optimisticInsert tmp repo) = repo) as Hback.
  { unfold rollback, optimisticInsert, upsertMany. simpl.
    rewrite upsert_fresh by done. unfold remove.
    rewrite filter_app, filter_cons_False, filter_nil, app_nil_r by naive_solver.
    by apply remove_fresh. }
  rewrite Hback. split_and!; [done|done| |done|done].
  unfold optimisticInsert, upsertMany. simpl. rewrite upsert_fresh by done.
  apply elem_of_id_set. exists tmp. split; [|done].
  apply elem_of_app. right. by apply list_elem_of_singleton.
Qed.

End repository.

(** C5 on the sample repository and the sample draft node. *)
Lemma C5_rollback_restores_repository_witness :
  (Tree.id Sample.draft ∉ Repository.id_set Sample.repo)
  ∧ Repository.rollback Sample.draft
      (Repository.optimisticInsert Sample.draft Sample.repo) = Sample.repo.
Proof.
  assert (Tree.id Sample.draft ∉ Repository.id_set Sample.repo) as Hfresh
    by (vm_compute; set_solver).
  split; [done|].
  by destruct (C5_rollback_restores_repository Sample.repo Sample.draft Hfresh)
    as (_ & H & _).
Defined.

(** ** Deduplication of fetches *)

Section coordinator.
Import FetchCoordinator.
Variable API_ENDPOINTS : Helpers.API_ENDPOINTS_t.

Abbreviation load := (FetchCoordinator.load API_ENDPOINTS).
Abbreviation step := (FetchCoordinator.step API_ENDPOINTS).
Abbreviation steps := (FetchCoordinator.steps API_ENDPOINTS).
Abbreviation reachable := (FetchCoordinator.reachable API_ENDPOINTS).
Abbreviation call_of := (FetchCoordinator.call_of API_ENDPOINTS).
Abbreviation issued := (FetchCoordinator.issued API_ENDPOINTS).

Lemma call_of_inj k k' : call_of k = call_of k' → k = k'.
Proof. destruct k, k'; simpl; congruence. Qed.

Lemma complete_sublist k l : complete k l `sublist_of` l.
Proof.
  induction l as [|k' l IH]; simpl; [done|].
  case_decide; [by apply sublist_cons|by apply sublist_skip].
Qed.

Lemma elem_of_complete k l k' :
  NoDup l → k' ∈ complete k l ↔ k' ∈ l ∧ k' ≠ k.
Proof.
  induction 1 as [|k0 l Hk0 Hl IH]; simpl.
  - set_solver.
  - case_decide as Heq.
    + subst k0. rewrite elem_of_cons. naive_solver.
    + rewrite !elem_of_cons, IH. naive_solver.
Qed.

Lemma count_NoDup k (l : list Key) :
  NoDup l →
  (length (filter (λ k', k' = k) l) ≤ 1)%nat
  ∧ (length (filter (λ k', k' = k) l) = 1%nat ↔ k ∈ l).
Proof.
  induction 1 as [|k0 l Hk0 Hl [IH1 IH2]]; simpl.
  - split; [lia|]. rewrite elem_of_nil. split; [done|tauto].
  - destruct (decide (k0 = k)) as [->|Hne].
    + rewrite filter_cons_True by done. simpl.
      assert (length (filter (λ k', k' = k) l) = 0%nat) as ->.
      { destruct (length (filter (λ k', k' = k) l)) as [|[|n]] eqn:Hlen;
          [done| |lia]. exfalso. by apply Hk0, IH2. }
      split; [lia|]. rewrite elem_of_cons. naive_solver.
    + rewrite filter_cons_False by done. rewrite elem_of_cons, IH2.
      naive_solver.
Qed.

Lemma load_coherent k s : coherent s → coherent (load k s).
Proof.
  intros [Hnd Hiff]. unfold FetchCoordinator.load.
  case_decide as Hin; [done|]. split; simpl.
  - apply NoDup_app. split_and!; [done| |apply NoDup_singleton].
    intros k' Hk' ->%list_elem_of_singleton. by apply Hin, Hiff.
  - intros k'. rewrite elem_of_app, list_elem_of_singleton, Hiff. set_solver.
Qed.

Lemma completion_coherent k s (r : Repository.t) :
  coherent s →
  coherent {| inFlight := inFlight s ∖ {[k]};
              pending := complete k (pending s);
              calls := calls s; repo := r |}.
Proof.
  intros [Hnd Hiff]. split; simpl.
  - eapply sublist_NoDup; [|apply complete_sublist]. done.
  - intros k'. rewrite elem_of_complete, Hiff by done. set_solver.
Qed.

Lemma step_coherent s e s' : step s e s' → coherent s → coherent s'.
Proof.
  destruct 1; intros Hc.
  - by apply load_coherent.
  - by apply completion_coherent.
  - by apply completion_coherent.
Qed.

Lemma reachable_coherent s : reachable s → coherent s.
Proof.
  induction 1 as [r|s e s' _ IH Hstep].
  - split; simpl; [constructor|]. set_solver.
  - by eapply step_coherent.
Qed.

Lemma steps_reachable s es s' : steps s es s' → reachable s → reachable s'.
Proof.
  induction 1 as [|s e s' es s'' Hstep _ IH]; [done|].
  intros Hr. apply IH. by eapply reachable_step.
Qed.

Lemma load_in_flight k s : k ∈ inFlight s → load k s = s.
Proof. intros Hin. unfold FetchCoordinator.load. by rewrite decide_True. Qed.

Lemma load_fresh k s :
  k ∉ inFlight s →
  k ∈ inFlight (load k s)
  ∧ calls (load k s) = calls s ++ [call_of k]
  ∧ issued k (load k s) = S (issued k s).
Proof.
  intros Hin. unfold FetchCoordinator.issued, FetchCoordinator.load.
  rewrite decide_False by done. simpl. split_and!; [set_solver|done|].
  rewrite filter_app, filter_cons_True, length_app by done. simpl. lia.
Qed.

(** While no event completes the operation for [k], the key stays in
    flight and no further call is made for it. *)
Lemma in_flight_stable k s es s' :
  steps s es s' →
  k ∈ inFlight s →
  Forall (λ e, ¬ completes k e) es →
  k ∈ inFlight s' ∧ issued k s' = issued k s.
Proof.
  induction 1 as [|s e s' es s'' Hstep _ IH]; [done|].
  intros Hin [Hne Hes]%Forall_cons.
  assert (k ∈ inFlight s' ∧ issued k s' = issued k s) as [Hin' Hcount].
  { destruct Hstep as [k0 s|k0 nodes s _|k0 s _]; simpl in Hne.
    - unfold FetchCoordinator.load. case_decide as Hk0; [done|].
      unfold FetchCoordinator.issued. simpl. split; [set_solver|].
      rewrite filter_app, filter_cons_False, filter_nil, app_nil_r; [done|].
      intros Heq%call_of_inj. congruence.
    - split; [simpl; set_solver|done].
    - split; [simpl; set_solver|done]. }
  destruct (IH Hin' Hes) as [? ?]. split; [done|congruence].
Qed.

(** C4: in every state reachable by load requests and completions, at
    most one network operation is pending per request key, and one is
    pending exactly for the keys in flight.  A request for a key in flight
    changes nothing, so requesting the same key twice from a state where it
    is not in flight makes exactly one call; this stays so whatever happens
    between the two requests, as long as the first fetch has not
    completed. *)
Theorem C4_one_fetch_per_key (s : State) (k : Key) :
  reachable s →
  (outstanding k s ≤ 1)%nat
  ∧ (outstanding k s = 1%nat ↔ k ∈ inFlight s)
  ∧ (k ∈ inFlight s → load k s = s)
  ∧ (k ∉ inFlight s →
     calls (load k (load k s)) = calls s ++ [call_of k]
     ∧ issued k (load k (load k s)) = S (issued k s)
     ∧ outstanding k (load k (load k s)) = 1%nat)
  ∧ (∀ es s',
       k ∉ inFlight s →
       steps (load k s) es s' →
       Forall (λ e, ¬ completes k e) es →
       issued k (load k s') = S (issued k s)
       ∧ outstanding k (load k s') = 1%nat).
Proof.
  intros Hr.
  assert (∀ s0, reachable s0 →
            (outstanding k s0 ≤ 1)%nat
            ∧ (outstanding k s0 = 1%nat ↔ k ∈ inFlight s0)) as Hone.
  { intros s0 [Hnd Hiff]%reachable_coherent. unfold outstanding.
    rewrite <-Hiff. by apply count_NoDup. }
  destruct (Hone s Hr) as [Hle Hiff].
  split_and!; [done|done|apply load_in_flight|..].
  - intros Hin. destruct (load_fresh k s Hin) as (Hin' & Hcalls & Hissued).
    rewrite (load_in_flight k (load k s)) by done.
    split_and!; [done|done|].
    apply Hone; [|done]. eapply reachable_step; [done|constructor].
  - intros es s' Hin Hsteps Hes.
    destruct (load_fresh k s Hin) as (Hin' & _ & Hissued).
    destruct (in_flight_stable k _ _ _ Hsteps Hin' Hes) as [Hin'' Hsame].
    rewrite (load_in_flight k s') by done. split; [congruence|].
    apply Hone; [|done]. eapply steps_reachable; [done|].
    eapply reachable_step; [done|constructor].
Qed.

End coordinator.

(** C4 in the state reached by one request for the children of node 2:
    one operation is pending for that key. *)
Lemma C4_one_fetch_per_key_witness :
  FetchCoordinator.reachable Sample.endpoints Sample.loading
  ∧ FetchCoordinator.outstanding
      (FetchCoordinator.children (JS.lit "2")) Sample.loading = 1%nat.
Proof.
  assert (FetchCoordinator.reachable Sample.endpoints Sample.loading) as Hr.
  { eapply FetchCoordinator.reachable_step;
      [apply FetchCoordinator.reachable_init|apply FetchCoordinator.step_load]. }
  split; [done|].
  destruct (C4_one_fetch_per_key Sample.endpoints Sample.loading
              (FetchCoordinator.children (JS.lit "2")) Hr) as (_ & H & _).
  apply H. vm_compute. set_solver.
Defined.

(** ** The layout store *)

Section layout.
Import Layout.

Lemma open_saved_as_seen e : saved_as_seen (open e).
Proof.
  unfold open, useLayoutStore. simpl. split_and!; simpl; [|done..].
  by rewrite lookup_insert_eq.
Qed.

Lemma assignLocale_saved_as_seen l p :
  saved_as_seen p → saved_as_seen (assignLocale l p).
Proof.
  intros (Hs & Hd & Hq). unfold assignLocale. case_decide; [done|].
  by split_and!.
Qed.

Lemma flush_saved_as_seen p : saved_as_seen p → saved_as_seen (flush p).
Proof.
  intros Hp. pose proof Hp as (Hs & Hd & Hq). unfold flush.
  destruct (queued p) eqn:Hqueued; [|exact Hp].
  case_decide as Heq.
  - by split_and!.
  - split_and!; simpl; [|done..]. by rewrite lookup_insert_eq.
Qed.

Lemma visit_snoc e events ev :
  visit e (events ++ [ev]) = handle (visit e events) ev.
Proof. unfold visit. by rewrite foldl_app. Qed.

Lemma visit_saved_as_seen e events : saved_as_seen (visit e events).
Proof.
  induction events as [|ev events IH] using rev_ind.
  - apply open_saved_as_seen.
  - rewrite visit_snoc. destruct ev.
    + by apply assignLocale_saved_as_seen.
    + by apply flush_saved_as_seen.
Qed.

Lemma flush_locale p : (flush p).(env).(locale) = p.(env).(locale).
Proof.
  unfold flush. destruct (queued p); [|done]. by case_decide.
Qed.

Lemma flush_queued p : (flush p).(queued) = false.
Proof.
  unfold flush. destruct (queued p) eqn:Hq; [|done]. by case_decide.
Qed.

Lemma direction_rtl l : direction l = JS.lit "rtl" ↔ l = JS.lit "ar".
Proof. unfold direction. case_decide; [done|]. split; [done|tauto]. Qed.

(** The saved language lags the locale by at most one tick.  Once the
    store is set up, and after any assignments to the locale and any
    ticks, the language in [localStorage] and the document direction are
    those of the locale the watcher saw last ([rtl] exactly for [ar]);
    that is the current locale whenever no run of the watcher is queued,
    and in particular after every tick.  An assignment by itself changes
    neither [localStorage] nor the direction. *)
Theorem layout_locale_in_sync (e : Env) (events : list Event) :
  let p := visit e events in
  p.(env).(localStorage) !! "language" = Some p.(seen)
  ∧ p.(env).(dir) = direction p.(seen)
  ∧ (p.(env).(dir) = JS.lit "rtl" ↔ p.(seen) = JS.lit "ar")
  ∧ (p.(queued) = false → p.(seen) = p.(env).(locale))
  ∧ ((visit e (events ++ [Tick])).(env).(localStorage) !! "language"
       = Some p.(env).(locale)
     ∧ (visit e (events ++ [Tick])).(env).(dir)
       = direction p.(env).(locale)
     ∧ (visit e (events ++ [Tick])).(env).(locale) = p.(env).(locale))
  ∧ (∀ l, (visit e (events ++ [Assign l])).(env).(localStorage)
          = p.(env).(localStorage)
          ∧ (visit e (events ++ [Assign l])).(env).(dir) = p.(env).(dir)
          ∧ (visit e (events ++ [Assign l])).(env).(locale) = l).
Proof.
  intros p. destruct (visit_saved_as_seen e events) as (Hs & Hd & Hq).
  fold p in Hs, Hd, Hq.
  destruct (flush_saved_as_seen p) as (Hs' & Hd' & Hq'); [done|].
  specialize (Hq' (flush_queued p)). rewrite flush_locale in Hq'.
  split_and!; [done|done|..].
  - rewrite Hd. apply direction_rtl.
  - by intros ?; rewrite Hq.
  - rewrite visit_snoc. fold p. simpl. by rewrite Hs', Hq'.
  - rewrite visit_snoc. fold p. simpl. by rewrite Hd', Hq'.
  - rewrite visit_snoc. apply flush_locale.
  - intros l. rewrite visit_snoc. fold p. simpl. unfold assignLocale.
    by case_decide.
Qed.

(** A later visit restores the language an earlier one saved: if the
    locale the watcher saw last on a page is not empty, a store set up
    over the [localStorage] that page leaves starts with that locale and
    its direction, whatever the default locale and the direction of the
    new page are, and leaves [localStorage] as it is. *)
Theorem layout_language_restored (e : Env) (events : list Event)
    (e' : Env) :
  (visit e events).(seen) ≠ [] →
  e'.(localStorage) = (visit e events).(env).(localStorage) →
  (open e').(env).(locale) = (visit e events).(seen)
  ∧ (open e').(env).(dir) = direction (visit e events).(seen)
  ∧ (open e').(env).(localStorage) = e'.(localStorage)
  ∧ (open e').(seen) = (visit e events).(seen).
Proof.
  intros Hne Hls. destruct (visit_saved_as_seen e events) as (Hsaved & _).
  unfold open, useLayoutStore. rewrite Hls, Hsaved.
  unfold JS.not_. rewrite bool_decide_eq_false_2 by done. simpl.
  split_and!; [done|done| |done].
  by apply insert_id.
Qed.

(** Once the store is set up, and after any assignments to the locale
    and any ticks, [getCurrentLanguage] returns the language the watcher
    saved last: the current locale when no run of the watcher is queued,
    the locale from before the assignments of the current tick
    otherwise.  Only when that saved language is the empty string does it
    turn to [useI18n()], which gives the locale ref inside a setup
    function and throws outside one. *)
Theorem getCurrentLanguage_after_session (e : Env) (events : list Event)
    (in_setup : bool) :
  let p := visit e events in
  getCurrentLanguage in_setup p.(env)
  = (if decide (p.(seen) = []) then
       if in_setup then LocaleRef p.(env).(locale) else Throws
     else Saved p.(seen))
  ∧ (p.(queued) = false → p.(seen) = p.(env).(locale))
  ∧ (p.(env).(locale) ≠ [] →
     getCurrentLanguage in_setup (visit e (events ++ [Tick])).(env)
     = Saved p.(env).(locale)).
Proof.
  intros p.
  assert (∀ q, saved_as_seen q →
            getCurrentLanguage in_setup q.(env)
            = if decide (q.(seen) = []) then
                if in_setup then LocaleRef q.(env).(locale) else Throws
              else Saved q.(seen)) as Hget.
  { intros q (Hs & _). unfold getCurrentLanguage, JS.not_. rewrite Hs.
    case_decide as Hq.
    - by rewrite bool_decide_eq_true_2.
    - by rewrite bool_decide_eq_false_2. }
  pose proof (visit_saved_as_seen e events) as Hp. fold p in Hp.
  split_and!.
  - by apply Hget.
  - destruct Hp as (_ & _ & Hq). by intros ?; rewrite Hq.
  - intros Hne. rewrite Hget by apply visit_saved_as_seen.
    rewrite visit_snoc. fold p. simpl.
    destruct (flush_saved_as_seen p Hp) as (_ & _ & Hq').
    specialize (Hq' (flush_queued p)). rewrite flush_locale in Hq'.
    rewrite <-Hq'. by rewrite decide_False.
Qed.

Lemma checkScreenSize_mobile e st :
  e.(innerWidth) < 768 →
  checkScreenSize e st
  = {| isSidebarOpen := negb st.(isSidebarOpen); isMobile := true |}.
Proof.
  intros Hw. unfold checkScreenSize. simpl.
  by rewrite bool_decide_eq_true_2.
Qed.

Lemma checkScreenSize_wide e st :
  768 ≤ e.(innerWidth) →
  checkScreenSize e st
  = {| isSidebarOpen := st.(isSidebarOpen); isMobile := false |}.
Proof.
  intros Hw. unfold checkScreenSize. simpl.
  by rewrite bool_decide_eq_false_2 by lia.
Qed.

(** [checkScreenSize] does not close the sidebar on a small screen, it
    flips it: [n] checks at a width below 768 leave the sidebar as it was
    when [n] is even and flipped when [n] is odd, so a second check opens
    again what the first one closed.  Checks at a width of 768 or more
    never touch the sidebar. *)
Theorem checkScreenSize_flips (env : Env) (st : Store) (n : nat) :
  let st' := Nat.iter n (checkScreenSize env) st in
  (env.(innerWidth) < 768 →
     st'.(isSidebarOpen)
     = (if Nat.even n then st.(isSidebarOpen) else negb st.(isSidebarOpen))
     ∧ (0 < n → st'.(isMobile) = true)%nat)
  ∧ (768 ≤ env.(innerWidth) →
     st'.(isSidebarOpen) = st.(isSidebarOpen)
     ∧ (0 < n → st'.(isMobile) = false)%nat).
Proof.
  intros st'. subst st'. split; intros Hw.
  - induction n as [|n [IH1 IH2]]; [split; [done|lia]|].
    rewrite Nat.iter_succ, checkScreenSize_mobile by done.
    cbn [isSidebarOpen isMobile].
    split; [|done]. rewrite IH1, Nat.even_succ, <-Nat.negb_even.
    destruct (Nat.even n); by rewrite ?negb_involutive.
  - induction n as [|n [IH1 IH2]]; [split; [done|lia]|].
    rewrite Nat.iter_succ, checkScreenSize_wide by done.
    cbn [isSidebarOpen isMobile]. done.
Qed.

End layout.

(** ** [debounce] *)

Section debounce.
Import Debounce.
Context {Args : Type}.

Lemma run_called a (es : list (Event Args)) timer :
  run (Called a :: es) timer = run es (Some a).
Proof.
  simpl. unfold Eff.bind, debounced.
  by destruct (run es (Some a)) as [[[] ?] ?].
Qed.

Lemma run_elapsed (es : list (Event Args)) timer :
  Eff.trace (run (Elapsed :: es) timer)
  = (Apply <$> option_list timer) ++ Eff.trace (run es None).
Proof.
  simpl. unfold Eff.bind, elapse, Eff.trace.
  by destruct timer; destruct (run es None) as [[[] ?] ?].
Qed.

Lemma run_calls (before : list Args) (es : list (Event Args)) timer a :
  run ((Called <$> before) ++ Called a :: es) timer = run es (Some a).
Proof.
  revert timer. induction before as [|b before IH]; intros timer.
  - apply run_called.
  - rewrite fmap_cons, <-app_comm_cons, run_called. apply IH.
Qed.

Lemma run_only_calls (cs : list Args) timer :
  Eff.trace (run (Called <$> cs) timer) = [].
Proof.
  revert timer. induction cs as [|c cs IH]; intros timer; [done|].
  rewrite fmap_cons, run_called. apply IH.
Qed.

(** A burst of calls collapses into one application: however many calls
    are made before the timer fires, and whatever timer was pending
    before them, [func] is applied once, with the arguments of the last
    call, and no timer is left.  Calls alone never apply [func]. *)
Theorem debounce_burst (timer : option Args) (before : list Args) (a : Args) :
  run ((Called <$> before) ++ [Called a; Elapsed]) timer
  = (tt, None, [Apply a])
  ∧ Eff.trace (run (Called <$> (before ++ [a])) timer) = [].
Proof.
  split; [|apply run_only_calls].
  rewrite run_calls. reflexivity.
Qed.

(** Over any sequence of calls and timer expiries, the argument lists
    [func] is applied to form a subsequence of the timer pending at the
    start followed by the calls made: [func] is never applied to arguments
    it was not called with, never twice for one call, never out of
    order; and a timer that fires twice in a row applies nothing the
    second time. *)
Theorem debounce_applies_calls_only (timer : option Args)
    (es : list (Event Args)) :
  Eff.trace (run es timer)
    `sublist_of` (Apply <$> (option_list timer ++ calls es))
  ∧ Eff.trace (run (Elapsed :: Elapsed :: es) timer)
    = Eff.trace (run (Elapsed :: es) timer).
Proof.
  split.
  - revert timer. induction es as [|e es IH]; intros timer.
    { apply sublist_nil_l. }
    destruct e as [a|].
    + rewrite run_called. unfold calls. rewrite bind_cons. fold (calls es).
      rewrite fmap_app. apply sublist_inserts_l, (IH (Some a)).
    + rewrite run_elapsed. unfold calls. rewrite bind_cons. fold (calls es).
      rewrite fmap_app. apply sublist_app; [done|]. apply (IH None).
  - rewrite !run_elapsed. by rewrite app_nil_l.
Qed.

End debounce.

(** ** The name of the downloaded file *)

Section download.
Import Download.

Abbreviation no_space := (Forall (λ c, JS.isWhiteSpace c = false)).

Lemma replace_runs_no_space by_ in_run s :
  no_space by_ → no_space (replace_runs by_ in_run s).
Proof.
  intros Hby. revert in_run.
  induction s as [|c s IH]; intros in_run; simpl; [constructor|].
  destruct (JS.isWhiteSpace c) eqn:Hc.
  - destruct in_run; [apply IH|]. apply Forall_app. split; [done|apply IH].
  - constructor; [done|apply IH].
Qed.

Lemma replace_runs_id by_ in_run s :
  no_space s → replace_runs by_ in_run s = s.
Proof.
  intros Hs. revert in_run.
  induction Hs as [|c s Hc Hs IH]; intros in_run; simpl; [done|].
  by rewrite Hc, IH.
Qed.

Lemma replace_runs_length in_run s :
  (length (replace_runs [UNDERSCORE] in_run s) ≤ length s)%nat.
Proof.
  revert in_run. induction s as [|c s IH]; intros in_run; simpl; [done|].
  destruct (JS.isWhiteSpace c).
  - destruct in_run; simpl; [specialize (IH true)|specialize (IH true)]; lia.
  - simpl. specialize (IH false). lia.
Qed.

Lemma replace_runs_skip by_ w v :
  Forall (λ c, JS.isWhiteSpace c = true) w →
  replace_runs by_ true (w ++ v) = replace_runs by_ true v.
Proof.
  induction 1 as [|c w Hc Hw IH]; simpl; [done|]. by rewrite Hc.
Qed.

Lemma replace_runs_fresh by_ v :
  (∀ c, head v = Some c → JS.isWhiteSpace c = false) →
  replace_runs by_ true v = replace_runs by_ false v.
Proof.
  destruct v as [|c v]; [done|]. intros Hv. simpl.
  by rewrite (Hv c).
Qed.

Lemma replace_runs_run by_ w v :
  w ≠ [] →
  Forall (λ c, JS.isWhiteSpace c = true) w →
  (∀ c, head v = Some c → JS.isWhiteSpace c = false) →
  replace_runs by_ false (w ++ v) = by_ ++ replace_runs by_ false v.
Proof.
  intros Hne Hw Hv. destruct Hw as [|c w Hc Hw]; [done|]. simpl.
  by rewrite Hc, replace_runs_skip, replace_runs_fresh.
Qed.

Lemma replace_runs_after_word by_ in_run u x :
  (∃ c, last u = Some c ∧ JS.isWhiteSpace c = false) →
  replace_runs by_ in_run (u ++ x)
  = replace_runs by_ in_run u ++ replace_runs by_ false x.
Proof.
  revert in_run. induction u as [|c u IH]; intros in_run (d & Hlast & Hd).
  { done. }
  destruct u as [|c' u].
  - simpl in Hlast. injection Hlast as ->. simpl. by rewrite Hd.
  - assert (∃ c0, last (c' :: u) = Some c0 ∧ JS.isWhiteSpace c0 = false)
      as Hu by (exists d; by rewrite <-Hlast).
    change (replace_runs by_ in_run ((c :: c' :: u) ++ x))
      with (if JS.isWhiteSpace c then
              if in_run then replace_runs by_ true ((c' :: u) ++ x)
              else by_ ++ replace_runs by_ true ((c' :: u) ++ x)
            else c :: replace_runs by_ false ((c' :: u) ++ x)).
    change (replace_runs by_ in_run (c :: c' :: u))
      with (if JS.isWhiteSpace c then
              if in_run then replace_runs by_ true (c' :: u)
              else by_ ++ replace_runs by_ true (c' :: u)
            else c :: replace_runs by_ false (c' :: u)).
    rewrite !IH by done.
    destruct (JS.isWhiteSpace c); [destruct in_run|]; try done.
    by rewrite app_assoc.
Qed.

(** The title part of the download name is the title with each maximal
    run of white space replaced by one underscore: a run of spaces, tabs
    or line breaks standing between two parts of the title, neither of
    which has white space next to the run, becomes a single underscore
    between what the two parts become, and a part without white space is
    kept as it is.  So the title part holds no white space, doing the
    replacement again changes nothing, the result is never longer than
    the title, and the whole file name is free of white space when the
    date is. *)
Theorem downloadName_no_white_space (title date : JS.str) :
  let name := replace_runs [UNDERSCORE] false title in
  no_space name
  ∧ (no_space title → name = title)
  ∧ replace_runs [UNDERSCORE] false name = name
  ∧ (length name ≤ length title)%nat
  ∧ (no_space date → no_space (downloadName title date))
  ∧ (∀ before run after,
       title = before ++ run ++ after →
       (∀ c, last before = Some c → JS.isWhiteSpace c = false) →
       run ≠ [] → Forall (λ c, JS.isWhiteSpace c = true) run →
       (∀ c, head after = Some c → JS.isWhiteSpace c = false) →
       name = replace_runs [UNDERSCORE] false before
              ++ [UNDERSCORE]
              ++ replace_runs [UNDERSCORE] false after).
Proof.
  intros name. subst name.
  assert (no_space (replace_runs [UNDERSCORE] false title)) as Hname.
  { apply replace_runs_no_space. by repeat constructor. }
  split_and!; [done|apply replace_runs_id|by apply replace_runs_id
              |apply replace_runs_length| |].
  - intros Hdate. unfold downloadName.
    rewrite !Forall_app. split_and!; [done| |done|]; by repeat constructor.
  - intros before run after -> Hb Hne Hrun Ha.
    destruct (last before) as [c|] eqn:Hlast.
    + rewrite replace_runs_after_word by eauto.
      by rewrite replace_runs_run.
    + apply last_None in Hlast as ->. simpl.
      by rewrite replace_runs_run.
Qed.

End download.

(** ** The create-node modal in use *)

Section session.
Import CreateNodeModal ModalSession.

Lemma bind_trace {A B} (m : M A) (k : A → M B) r :
  Eff.trace (Eff.bind m k r)
  = Eff.trace (m r) ++ Eff.trace (k (Eff.result (m r)) (Eff.state (m r))).
Proof.
  unfold Eff.bind, Eff.trace, Eff.result, Eff.state.
  destruct (m r) as [[a r1] tr1]. simpl.
  by destruct (k a r1) as [[b r2] tr2].
Qed.

Lemma handleSubmit_trace props r :
  Forall (submits_acceptable props) (Eff.trace (handleSubmit props r))
  ∧ (length (filter is_submit (Eff.trace (handleSubmit props r))) ≤ 1)%nat.
Proof.
  destruct (decide (errors_of r = ∅)) as [He|He].
  - rewrite handleSubmit_valid by done. unfold Eff.trace. simpl.
    split; [|done].
    apply errors_of_empty in He as (Hl & Hd & Hn).
    repeat constructor; simpl; try done.
    destruct (numberOfEmployees r) as [c|] eqn:Hc.
    + exists c. split; [done|]. destruct (negative c) eqn:Hneg; [|done].
      exfalso. apply Hn. right. by exists c.
    + exfalso. apply Hn. by left.
  - rewrite handleSubmit_invalid by done. unfold Eff.trace. simpl.
    split; [by repeat constructor|]. lia.
Qed.

Lemma handle_trace props e r :
  Forall (submits_acceptable props) (Eff.trace (handle props e r))
  ∧ (length (filter is_submit (Eff.trace (handle props e r)))
     ≤ if is_SubmitForm e then 1 else 0)%nat.
Proof.
  destruct e as [v|v|v| |mounted inside|]; simpl;
    try (split; [by repeat constructor|done]).
  - apply handleSubmit_trace.
  - unfold handleClickOutside.
    destruct (mounted && negb inside); (split; [by repeat constructor|done]).
Qed.

(** Whatever the user does, in whatever order (typing into the inputs,
    clearing them, submitting, clicking inside or outside, cancelling),
    every [submit] event the modal emits carries a label and a
    description that are not blank, a count that is neither [null] nor
    below zero, and the [parentId] given to the modal; and it emits at
    most one [submit] per submission of the form.  The count may still be
    the empty string of a cleared input. *)
Theorem modal_submits_only_acceptable (props : Props)
    (es : list UserEvent) (r : Refs) :
  Forall (submits_acceptable props) (Eff.trace (run props es r))
  ∧ (length (filter is_submit (Eff.trace (run props es r)))
     ≤ length (filter is_SubmitForm es))%nat.
Proof.
  revert r. induction es as [|e es IH]; intros r.
  { split; [constructor|done]. }
  simpl. rewrite bind_trace.
  destruct (handle_trace props e r) as [He1 He2].
  destruct (IH (Eff.state (handle props e r))) as [IH1 IH2].
  split; [by apply Forall_app|].
  rewrite filter_app, length_app.
  destruct (is_SubmitForm e) eqn:Hs.
  - rewrite filter_cons_True by by apply Is_true_true. simpl. lia.
  - rewrite filter_cons_False by by apply Is_true_false. lia.
Qed.

(** A submission that passes validation leaves the modal as it was when
    first set up: the three inputs empty, no error shown,
    [isInputValid] true. *)
Theorem handleSubmit_valid_resets (props : Props) (r : Refs) :
  Eff.result (validateForm r) = true →
  Eff.state (handleSubmit props r) = setup.
Proof.
  rewrite validateForm_run. unfold Eff.result. simpl.
  intros He%bool_decide_eq_true. by rewrite handleSubmit_valid.
Qed.

Lemma handleSubmit_valid_resets_witness :
  Eff.result (validateForm Sample.filled) = true
  ∧ Eff.state (handleSubmit {| parentId := None |} Sample.filled) = setup.
Proof.
  assert (Eff.result (validateForm Sample.filled) = true) as Hv
    by (vm_compute; reflexivity).
  split; [done|].
  exact (handleSubmit_valid_resets {| parentId := None |} Sample.filled Hv).
Defined.

(** The label error is raised exactly for a label made of white space
    only (spaces, tabs, line breaks and the like, or nothing at all), and
    likewise the description error: text with one other character passes,
    whatever surrounds it. *)
Theorem validateForm_blank_means_white_space (r : Refs) :
  let errors := errorMessages (Eff.state (validateForm r)) in
  (errors !! "label" = Some "empty_node_label"
     ↔ Forall (λ c, JS.isWhiteSpace c = true) r.(newNodeLabel))
  ∧ (errors !! "description" = Some "empty_description"
     ↔ Forall (λ c, JS.isWhiteSpace c = true) r.(description))
  ∧ (∀ pre c post, JS.isWhiteSpace c = false →
       r.(newNodeLabel) = pre ++ c :: post → errors !! "label" = None).
Proof.
  intros errors. subst errors. fold (errors_of r).
  assert (errors_of r !! "label" = Some "empty_node_label"
          ↔ Forall (λ c, JS.isWhiteSpace c = true) r.(newNodeLabel)) as Hl.
  { rewrite errors_of_lookup, <-trim_nil. unfold label_violated.
    naive_solver. }
  split_and!; [done| |].
  - rewrite errors_of_lookup, <-trim_nil. unfold description_violated.
    naive_solver.
  - intros pre c post Hc Heq. apply eq_None_not_Some. intros [v Hv].
    pose proof Hv as Hv'.
    apply errors_of_lookup in Hv' as [(_ & -> & _)|[(? & _)|(? & _)]];
      [|done..].
    apply Hl in Hv. rewrite Heq in Hv.
    apply Forall_app in Hv as [_ Hv]. inversion Hv; congruence.
Qed.

End session.

(** ** Visits *)

(** On the second sample visit the Arabic of the first one is
    restored. *)
Lemma layout_language_restored_witness :
  Layout.seen (Layout.visit Demo.first_visit Demo.switch_to_arabic) ≠ []
  ∧ Layout.locale (Layout.env (Layout.open Demo.second_visit)) = JS.lit "ar"
  ∧ Layout.dir (Layout.env (Layout.open Demo.second_visit)) = JS.lit "rtl".
Proof.
  assert (Layout.seen (Layout.visit Demo.first_visit Demo.switch_to_arabic)
          ≠ []) as Hne by (vm_compute; discriminate).
  split; [done|].
  destruct (layout_language_restored Demo.first_visit Demo.switch_to_arabic
              Demo.second_visit Hne eq_refl) as (Hl & Hd & _).
  split; [rewrite Hl|rewrite Hd]; vm_compute; reflexivity.
Defined.

(** Right after the assignment the saved language is still the old one;
    the tick brings it up to date. *)
Example layout_stale_until_tick :
  (Layout.visit Demo.first_visit [Layout.Assign (JS.lit "ar")])
    .(Layout.env).(Layout.localStorage) !! "language" = Some (JS.lit "en")
  ∧ Layout.getCurrentLanguage false
      (Layout.visit Demo.first_visit [Layout.Assign (JS.lit "ar")])
        .(Layout.env)
    = Layout.Saved (JS.lit "en")
  ∧ Layout.getCurrentLanguage false
      (Layout.visit Demo.first_visit Demo.switch_to_arabic).(Layout.env)
    = Layout.Saved (JS.lit "ar").
Proof. vm_compute. done. Qed.

(** ** Reading the exported text back *)

Section read_back.
Import Helpers.
Context {V : Type} (toString : V → JS.str).

Abbreviation rendered := CSVRead.rendered.
Abbreviation more := CSVRead.more.

Lemma more_cons g fs :
  more (g :: fs) = JS.COMMA :: CSVText.quoted g ++ more fs.
Proof. reflexivity. Qed.

Lemma rendered_cons f fs : rendered (f :: fs) = CSVText.quoted f ++ more fs.
Proof.
  revert f. induction fs as [|g fs IH]; intros f.
  - unfold CSVRead.rendered. simpl. by rewrite app_nil_r.
  - change (rendered (f :: g :: fs))
      with (CSVText.quoted f ++ JS.COMMA :: rendered (g :: fs)).
    by rewrite IH, more_cons.
Qed.

Lemma scan_doubled f cur row done rest :
  CSVRead.scan CSVRead.InField cur row done
    (CSVText.doubled f ++ JS.QUOTE :: rest)
  = CSVRead.scan CSVRead.AfterQuote (reverse f ++ cur) row done rest.
Proof.
  revert cur. induction f as [|c f IH]; intros cur; [done|].
  rewrite reverse_cons, <-app_assoc. simpl.
  destruct (N.eqb_spec c JS.QUOTE) as [->|Hne]; simpl.
  - apply IH.
  - destruct (N.eqb_spec c JS.QUOTE); [done|]. apply IH.
Qed.

Lemma scan_field_after_comma f row done rest :
  CSVRead.scan CSVRead.FieldStart [] row done (CSVText.quoted f ++ rest)
  = CSVRead.scan CSVRead.AfterQuote (reverse f) row done rest.
Proof.
  unfold CSVText.quoted. simpl. rewrite <-app_assoc. simpl.
  by rewrite scan_doubled, app_nil_r.
Qed.

Lemma scan_first_field f done rest :
  CSVRead.scan CSVRead.LineStart [] [] done (CSVText.quoted f ++ rest)
  = CSVRead.scan CSVRead.AfterQuote (reverse f) [] done rest.
Proof.
  unfold CSVText.quoted. simpl. rewrite <-app_assoc. simpl.
  by rewrite scan_doubled, app_nil_r.
Qed.

Lemma scan_comma cur row done s :
  CSVRead.scan CSVRead.AfterQuote cur row done (JS.COMMA :: s)
  = CSVRead.scan CSVRead.FieldStart [] (reverse cur :: row) done s.
Proof. reflexivity. Qed.

Lemma scan_newline cur row done s :
  CSVRead.scan CSVRead.AfterQuote cur row done (JS.LF :: s)
  = CSVRead.scan CSVRead.LineStart [] []
      (reverse (reverse cur :: row) :: done) s.
Proof. reflexivity. Qed.

Lemma scan_more_then_newline fs f row done next :
  CSVRead.scan CSVRead.AfterQuote (reverse f) row done
    (more fs ++ JS.LF :: next)
  = CSVRead.scan CSVRead.LineStart [] []
      ((reverse row ++ f :: fs) :: done) next.
Proof.
  revert f row. induction fs as [|g fs IH]; intros f row.
  - change (more [] ++ JS.LF :: next) with (JS.LF :: next).
    by rewrite scan_newline, reverse_involutive, reverse_cons.
  - rewrite more_cons, <-app_comm_cons, <-app_assoc, scan_comma.
    rewrite scan_field_after_comma, IH, reverse_involutive, reverse_cons.
    by rewrite <-app_assoc.
Qed.

Lemma scan_more_then_end fs f row done :
  CSVRead.scan CSVRead.AfterQuote (reverse f) row done (more fs)
  = Some (reverse ((reverse row ++ f :: fs) :: done)).
Proof.
  revert f row. induction fs as [|g fs IH]; intros f row.
  - simpl. by rewrite reverse_involutive, !reverse_cons.
  - rewrite more_cons, scan_comma.
    rewrite scan_field_after_comma, IH, reverse_involutive, !reverse_cons.
    by rewrite <-app_assoc.
Qed.

Lemma scan_line_then_newline fs done next :
  CSVRead.scan CSVRead.LineStart [] [] done (rendered fs ++ JS.LF :: next)
  = CSVRead.scan CSVRead.LineStart [] [] (fs :: done) next.
Proof.
  destruct fs as [|f fs]; [done|].
  rewrite rendered_cons, <-app_assoc, scan_first_field.
  by rewrite scan_more_then_newline.
Qed.

Lemma scan_last_line fs done :
  fs ≠ [] →
  CSVRead.scan CSVRead.LineStart [] [] done (rendered fs)
  = Some (reverse (fs :: done)).
Proof.
  destruct fs as [|f fs]; [done|]. intros _.
  rewrite rendered_cons, scan_first_field.
  by rewrite scan_more_then_end.
Qed.

Lemma lines_cons_cons l l' ls :
  CSVText.lines (l :: l' :: ls) = l ++ JS.LF :: CSVText.lines (l' :: ls).
Proof. reflexivity. Qed.

Lemma scan_lines ls done :
  last ls ≠ Some [] →
  CSVRead.scan CSVRead.LineStart [] [] done (CSVText.lines (rendered <$> ls))
  = Some (reverse done ++ ls).
Proof.
  revert done. induction ls as [|l ls IH]; intros done Hlast.
  - simpl. by rewrite app_nil_r.
  - destruct ls as [|l' ls].
    + simpl. rewrite scan_last_line by (intros ->; by apply Hlast).
      by rewrite reverse_cons.
    + rewrite !fmap_cons, lines_cons_cons, scan_line_then_newline.
      rewrite <-fmap_cons, IH by done.
      by rewrite reverse_cons, <-app_assoc.
Qed.

Lemma scan_lines_empty_last ls done :
  CSVRead.scan CSVRead.LineStart [] [] done
    (CSVText.lines (rendered <$> (ls ++ [[]])))
  = Some (reverse done ++ ls).
Proof.
  revert done. induction ls as [|l ls IH]; intros done.
  - simpl. by rewrite app_nil_r.
  - destruct (ls ++ [[]]) as [|l' rest] eqn:Heq.
    { by destruct ls. }
    rewrite <-app_comm_cons, Heq, !fmap_cons, lines_cons_cons.
    rewrite scan_line_then_newline, <-fmap_cons, IH.
    by rewrite reverse_cons, <-app_assoc.
Qed.

Lemma field_cellText cell :
  CSVText.field toString cell
  = CSVText.quoted (CSVRead.cellText toString cell).
Proof. by destruct cell. Qed.

Lemma exportToCSV_rendered rows headers :
  exportToCSV toString rows headers
  = rendered headers ++ JS.LF
      :: CSVText.lines (rendered <$> (CSVRead.rowTexts toString <$> rows)).
Proof.
  assert (csvHeader <$> headers = CSVText.quoted <$> headers) as Hh.
  { apply list_fmap_ext. intros _ h _. apply csvHeader_quoted. }
  assert ((λ row, JS.join [JS.COMMA] (csvCell toString <$> row)) <$> rows
          = rendered <$> (CSVRead.rowTexts toString <$> rows)) as Hr.
  { rewrite <-list_fmap_compose. apply list_fmap_ext. intros _ row _.
    unfold compose, CSVRead.rendered, CSVRead.rowTexts.
    rewrite join_comma, <-list_fmap_compose. f_equal.
    apply list_fmap_ext. intros _ cell _. unfold compose.
    by rewrite csvCell_field, field_cellText. }
  unfold exportToCSV, csvHeaders, csvRows.
  rewrite join_comma, join_newline, Hh, Hr. reflexivity.
Qed.

(** The export loses nothing but the kind of an empty cell: when the last
    row is not empty, reading the text of [exportToCSV] back gives the
    headers and, row by row and cell by cell, the string of each cell
    (nothing for [null] and [undefined]), whatever quote characters,
    commas and newlines the cells contain. *)
Theorem exportToCSV_read_back (rows : list (list (Cell V)))
    (headers : list JS.str) :
  last rows ≠ Some [] →
  CSVRead.read (exportToCSV toString rows headers)
  = Some (headers, CSVRead.rowTexts toString <$> rows).
Proof.
  intros Hlast. unfold CSVRead.read.
  rewrite exportToCSV_rendered, scan_line_then_newline, scan_lines; [done|].
  rewrite fmap_last. by destruct (last rows) as [[|cell row]|].
Qed.

(** Where the export is blind.  An empty last row leaves no trace in what
    is read back; a table with no rows and a table with one empty row give
    the same text, the header line and a newline; and a [null] cell, an
    [undefined] cell and an empty string give the same field. *)
Theorem exportToCSV_blind_spots (rows : list (list (Cell V)))
    (headers : list JS.str) :
  CSVRead.read (exportToCSV toString (rows ++ [[]]) headers)
  = Some (headers, CSVRead.rowTexts toString <$> rows)
  ∧ exportToCSV toString [[]] headers = exportToCSV toString [] headers
  ∧ exportToCSV toString [] headers = csvHeaders headers ++ [JS.LF]
  ∧ csvCell toString CNull = csvCell toString (CString [])
  ∧ csvCell toString CUndefined = csvCell toString (CString []).
Proof.
  split_and!; [|done|by unfold exportToCSV; rewrite app_nil_r|done|done].
  unfold CSVRead.read.
  rewrite exportToCSV_rendered, scan_line_then_newline, fmap_app.
  by rewrite scan_lines_empty_last.
Qed.

End read_back.

Lemma exportToCSV_read_back_witness :
  last Demo.table ≠ Some []
  ∧ CSVRead.read
      (Helpers.exportToCSV Sample.string_of_bool Demo.table
         [JS.lit "name"; JS.lit "in stock"])
    = Some ([JS.lit "name"; JS.lit "in stock"],
            [[JS.lit "a" ++ [JS.QUOTE] ++ JS.lit "b"; JS.lit "true"];
             [];
             [JS.lit "x,y" ++ [JS.LF] ++ JS.lit "z"; []]]).
Proof.
  assert (last Demo.table ≠ Some []) as Hlast by (vm_compute; discriminate).
  split; [done|].
  exact (exportToCSV_read_back Sample.string_of_bool Demo.table
           [JS.lit "name"; JS.lit "in stock"] Hlast).
Defined.

(** ** Sample runs *)

Example downloadName_sample :
  Download.downloadName (JS.lit "  Org   chart 2026 ") (JS.lit "2026-11-01")
  = JS.lit "_Org_chart_2026__2026-11-01.csv".
Proof. reflexivity. Qed.

Example debounce_sample :
  Eff.trace
    (Debounce.run
       [Debounce.Called 1%nat; Debounce.Called 2%nat; Debounce.Elapsed;
        Debounce.Elapsed; Debounce.Called 3%nat; Debounce.Elapsed;
        Debounce.Called 4%nat]
       None)
  = [Debounce.Apply 2%nat; Debounce.Apply 3%nat].
Proof. reflexivity. Qed.

Example second_visit_sample :
  Layout.useLayoutStore Demo.second_visit
  = ({| Layout.isSidebarOpen := true; Layout.isMobile := false |},
     {| Layout.localStorage := {["language" := JS.lit "ar"]};
        Layout.dir := JS.lit "rtl"; Layout.innerWidth := 375;
        Layout.locale := JS.lit "ar" |}).
Proof. vm_compute. reflexivity. Qed.

Example checkScreenSize_sample :
  Layout.isSidebarOpen
    <$> [Nat.iter 1 (Layout.checkScreenSize Demo.second_visit)
           {| Layout.isSidebarOpen := true; Layout.isMobile := false |};
         Nat.iter 2 (Layout.checkScreenSize Demo.second_visit)
           {| Layout.isSidebarOpen := true; Layout.isMobile := false |}]
  = [false; true].
Proof. reflexivity. Qed.

Example modal_session_sample :
  Eff.trace
    (ModalSession.run {| CreateNodeModal.parentId := Some (JS.lit "1") |}
       [ModalSession.SubmitForm;
        ModalSession.InputLabel (JS.lit "Support");
        ModalSession.InputDescription (JS.lit "Help desk");
        ModalSession.InputEmployees (CreateNodeModal.count 4);
        ModalSession.Click true true;
        ModalSession.SubmitForm]
       CreateNodeModal.setup)
  ≫= (λ eff, match eff with CreateNodeModal.Emit e => [e] | _ => [] end)
  = [CreateNodeModal.submit
       {| CreateNodeModal.NewNode.label := JS.lit "Support";
          CreateNodeModal.NewNode.parentId := Some (JS.lit "1");
          CreateNodeModal.NewNode.description := JS.lit "Help desk";
          CreateNodeModal.NewNode.numberOfEmployees :=
            Some (CreateNodeModal.count 4) |};
     CreateNodeModal.close].
Proof. vm_compute. reflexivity. Qed.

(** Typing a count and clearing the input again: the form is submitted
    with the empty string for a count. *)
Example modal_session_cleared :
  Eff.trace
    (ModalSession.run {| CreateNodeModal.parentId := None |}
       [ModalSession.InputLabel (JS.lit "Support");
        ModalSession.InputDescription (JS.lit "Help desk");
        ModalSession.InputEmployees (CreateNodeModal.count 4);
        ModalSession.InputEmployees CreateNodeModal.EmptyString;
        ModalSession.SubmitForm]
       CreateNodeModal.setup)
  ≫= (λ eff, match eff with CreateNodeModal.Emit e => [e] | _ => [] end)
  = [CreateNodeModal.submit
       {| CreateNodeModal.NewNode.label := JS.lit "Support";
          CreateNodeModal.NewNode.parentId := None;
          CreateNodeModal.NewNode.description := JS.lit "Help desk";
          CreateNodeModal.NewNode.numberOfEmployees :=
            Some CreateNodeModal.EmptyString |};
     CreateNodeModal.close].
Proof. vm_compute. reflexivity. Qed.
